(** * Per-peer transmission scheduling of the gossip layer (gossip/node.py)

    A shallow embedding of the three classes of [gossip/node.py]:
    [RoundTripEstimator], [TransmissionQueue] and [Node], together with the
    part of Python's [heapq] the queue relies on.

    Modelling conventions.
    - Python floats are modelled by exact rationals ([Q]); [==] on floats is
      [Qeq_bool], [<] is the strict rational order.  Rounding, infinities and
      NaN are outside the model.  A float product can round where the
      rational one does not ([5e-324 * 0.5] is [0.0]), so the phase of the
      estimator is told by the test the code makes ([_RTTVAR == 0.0]), never
      by the sign of a measurement, and no statement gives a closed form for
      repeated smoothing.
    - A [dict] is a [gmap] keyed by the message identifier (a [string]).
    - The heap is a Python list used as an array: a [list] read with [!!] and
      written with [<[ i := x ]>].
    - A failed [assert] is the outcome [AssertionError]; mutations done
      before the failing statement stay in the returned state. *)

From Stdlib Require Import QArith Qminmax Qabs Lqa String Ascii.
From Stdlib Require Import Qpower OrderedTypeEx ZifyNat.
From stdpp Require Import gmap strings list fin_maps.

Ltac Zify.zify_post_hook ::= Z.to_euclidean_division_equations.

(** ** Python builtins on numbers *)

(** [a < b] on numbers. *)
Definition Qltb (a b : Q) : bool := if Qlt_le_dec a b then true else false.

(** [max(a, b)]: the first argument unless the second is strictly greater. *)
Definition pymax (a b : Q) : Q := if Qltb a b then b else a.

(** [min(a, b)]: the first argument unless the second is strictly smaller. *)
Definition pymin (a b : Q) : Q := if Qltb b a then b else a.

(** What a call leaves behind besides the state: a value, or the
    exception it raised. *)
Inductive exception : Type :=
| AssertionError
| IndexError.

Inductive outcome (A : Type) : Type :=
| Ok (a : A)
| Raise (e : exception).

Arguments Ok {A} a.
Arguments Raise {A} e.

(** ** RoundTripEstimator *)

Module RoundTripEstimator.

Local Open Scope Q_scope.

Definition MinimumRTO : Q := 1.0.
Definition MaximumRTO : Q := 60.0.
Definition BackoffRate : Q := 2.0.

Definition MinResolution : Q := 0.025.
Definition ALPHA : Q := 0.125.
Definition BETA : Q := 0.25.
Definition K : Q := 4.0.

Record t : Type := Build
  { RTO : Q;
    _SRTT : Q;
    _RTTVAR : Q }.

Definition __init__ : t :=
  {| RTO := MinimumRTO; _SRTT := 0.0; _RTTVAR := 0.0 |}.

(** The seeding branch of [update] (taken when [_RTTVAR == 0.0]). *)
Definition seed (measuredrto : Q) : Q * Q :=
  (measuredrto, measuredrto * 0.5).

(** The smoothing branch of [update]: [_RTTVAR] is assigned first, from
    the old [_SRTT]; the pair is (new [_SRTT], new [_RTTVAR]). *)
Definition smooth (measuredrto : Q) (self : t) : Q * Q :=
  let rttvar :=
    (1.0 - BETA) * _RTTVAR self + BETA * Qabs (_SRTT self - measuredrto) in
  let srtt := (1.0 - ALPHA) * _SRTT self + ALPHA * measuredrto in
  (srtt, rttvar).

(** The two assignments to [RTO] that end [update]. *)
Definition recompute (srtt rttvar : Q) : Q :=
  let rto := srtt + pymax MinResolution (K * rttvar) in
  pymax MinimumRTO (pymin MaximumRTO rto).

Definition update (measuredrto : Q) (self : t) : t :=
  let '(srtt, rttvar) :=
    if Qeq_bool (_RTTVAR self) 0.0
    then seed measuredrto
    else smooth measuredrto self in
  {| RTO := recompute srtt rttvar; _SRTT := srtt; _RTTVAR := rttvar |}.

Definition backoff (self : t) : t :=
  {| RTO := pymin (RTO self * BackoffRate) MaximumRTO;
     _SRTT := 0.0;
     _RTTVAR := 0.0 |}.

(** Calls made on an estimator, and their effect in sequence. *)
Inductive call : Type :=
| Update (measuredrto : Q)
| Backoff.

Definition apply (self : t) (c : call) : t :=
  match c with
  | Update x => update x self
  | Backoff => backoff self
  end.

Definition run (self : t) (cs : list call) : t := fold_left apply cs self.

(** Numeric equality of two estimator states, field by field. *)
Definition same (a b : t) : Prop :=
  RTO a == RTO b /\ _SRTT a == _SRTT b /\ _RTTVAR a == _RTTVAR b.

Definition positive (c : call) : Prop :=
  match c with
  | Update x => 0 < x
  | Backoff => True
  end.

End RoundTripEstimator.

(** ** heapq

    The functions of Python's [heapq] that the queue calls, transcribed from
    the library's reference implementation ([Lib/heapq.py]); [lt] is the
    [<] of the elements.  A loop runs on a counter that bounds its
    iterations: [pos] only decreases in [_siftdown] and only increases, below
    [endpos], in [_siftup].  The indices read are always in range. *)

Module heapq.
Section heapq.
Context {A : Type} (lt : A -> A -> bool).

Fixpoint _siftdown_loop (fuel : nat) (heap : list A) (newitem : A)
    (startpos pos : nat) : list A :=
  match fuel with
  | O => <[pos := newitem]> heap
  | S fuel =>
      if decide (startpos < pos)%nat then
        let parentpos := Nat.shiftr (pos - 1) 1 in
        match heap !! parentpos with
        | Some parent =>
            if lt newitem parent
            then _siftdown_loop fuel (<[pos := parent]> heap) newitem
                   startpos parentpos
            else <[pos := newitem]> heap
        | None => heap
        end
      else <[pos := newitem]> heap
  end.

Definition _siftdown (heap : list A) (startpos pos : nat) : list A :=
  match heap !! pos with
  | Some newitem => _siftdown_loop pos heap newitem startpos pos
  | None => heap
  end.

Definition smaller_child (heap : list A) (endpos childpos : nat) : nat :=
  let rightpos := (childpos + 1)%nat in
  if decide (rightpos < endpos)%nat then
    match heap !! childpos, heap !! rightpos with
    | Some l, Some r => if lt l r then childpos else rightpos
    | _, _ => childpos
    end
  else childpos.

Fixpoint _siftup_loop (fuel : nat) (heap : list A) (endpos pos : nat)
    : list A * nat :=
  match fuel with
  | O => (heap, pos)
  | S fuel =>
      let childpos := (2 * pos + 1)%nat in
      if decide (childpos < endpos)%nat then
        let childpos := smaller_child heap endpos childpos in
        match heap !! childpos with
        | Some child =>
            _siftup_loop fuel (<[pos := child]> heap) endpos childpos
        | None => (heap, pos)
        end
      else (heap, pos)
  end.

Definition _siftup (heap : list A) (pos : nat) : list A :=
  let endpos := length heap in
  let startpos := pos in
  match heap !! pos with
  | Some newitem =>
      let '(heap, pos) := _siftup_loop endpos heap endpos pos in
      _siftdown (<[pos := newitem]> heap) startpos pos
  | None => heap
  end.

Definition heappush (heap : list A) (item : A) : list A :=
  let heap := heap ++ [item] in
  _siftdown heap 0 (length heap - 1).

Definition heappop (heap : list A) : option (A * list A) :=
  match last heap with
  | None => None
  | Some lastelt =>
      let heap := removelast heap in
      match heap with
      | returnitem :: _ =>
          Some (returnitem, _siftup (<[0%nat := lastelt]> heap) 0)
      | [] => Some (lastelt, heap)
      end
  end.

Definition heapify (x : list A) : list A :=
  let n := length x in
  fold_left _siftup (rev (seq 0 (n / 2))) x.
End heapq.
End heapq.


(** ** Messages

    A message is external to this module; the queue and the node read its
    [Identifier], its [IsSystemMessage] flag and its length ([len(msg)]). *)

Record message : Type := Message
  { Identifier : string;
    IsSystemMessage : bool;
    __len__ : nat }.

(** ** TransmissionQueue *)

Module TransmissionQueue.

(** A heap entry is the tuple [(timetosend, messageid)]. *)
Definition entry : Type := Q * string.

(** [<] on such tuples: the first components that differ (by [==])
    decide; equal tuples are not [<]. *)
Definition entry_lt (a b : entry) : bool :=
  if Qeq_bool a.1 b.1 then String.ltb a.2 b.2 else Qltb a.1 b.1.

Record t : Type := Build
  { _messages : gmap string message;
    _times : gmap string Q;
    _heap : list entry }.

Definition __init__ : t :=
  {| _messages := ∅; _times := ∅; _heap := [] |}.

Definition set_heap (self : t) (heap : list entry) : t :=
  {| _messages := _messages self; _times := _times self; _heap := heap |}.

Definition enqueue_message (msg : message) (timetosend : Q) (self : t)
    : t * outcome unit :=
  let messageid := Identifier msg in
  match _messages self !! messageid with
  | Some _ => (self, Raise AssertionError)
  | None =>
      match _times self !! messageid with
      | Some _ => (self, Raise AssertionError)
      | None =>
          ({| _messages := <[messageid := msg]> (_messages self);
              _times := <[messageid := timetosend]> (_times self);
              _heap := heapq.heappush entry_lt (_heap self)
                         (timetosend, messageid) |},
           Ok tt)
      end
  end.

(** The loop of [_buildheap]: the pairs of [_times.iteritems()] still to
    visit, and the heap list built so far. *)
Fixpoint _buildheap_loop (messages : gmap string message)
    (items : list (string * Q)) (heap : list entry)
    : list entry * outcome unit :=
  match items with
  | [] => (heap, Ok tt)
  | (messageid, timetosend) :: items =>
      match messages !! messageid with
      | Some _ =>
          _buildheap_loop messages items (heap ++ [(timetosend, messageid)])
      | None => (heap, Raise AssertionError)
      end
  end.

Definition _buildheap (self : t) : t * outcome unit :=
  if decide (2 * size (_times self) < length (_heap self))%nat then
    match _buildheap_loop (_messages self) (map_to_list (_times self)) []
    with
    | (heap, Ok _) => (set_heap self (heapq.heapify entry_lt heap), Ok tt)
    | (heap, Raise e) => (set_heap self heap, Raise e)
    end
  else (self, Ok tt).

Definition dequeue_message (msg : message) (self : t) : t * outcome unit :=
  _buildheap
    {| _messages := delete (Identifier msg) (_messages self);
       _times := delete (Identifier msg) (_times self);
       _heap := _heap self |}.

(** The test of [_trimheap]: the pair holds the current transmission time
    of the message id. *)
Definition current (self : t) (timetosend : Q) (messageid : string) : bool :=
  match _times self !! messageid with
  | Some t' => Qeq_bool t' timetosend
  | None => false
  end.

(** The [while True] of [_trimheap]; every turn but the last pops one
    entry, so the length of the heap bounds the turns. *)
Fixpoint _trimheap_loop (fuel : nat) (self : t) : t * outcome unit :=
  match fuel with
  | O => (self, Ok tt)
  | S fuel =>
      match _heap self with
      | [] => (self, Ok tt)
      | (timetosend, messageid) :: _ =>
          if current self timetosend messageid then
            match _messages self !! messageid with
            | Some _ => (self, Ok tt)
            | None => (self, Raise AssertionError)
            end
          else
            match heapq.heappop entry_lt (_heap self) with
            | Some (_, heap) => _trimheap_loop fuel (set_heap self heap)
            | None => (self, Raise IndexError)
            end
      end
  end.

Definition _trimheap (self : t) : t * outcome unit :=
  _trimheap_loop (length (_heap self)) self.

(** The [Head] property; reading it trims the heap. *)
Definition Head (self : t) : t * outcome (option (Q * message)) :=
  match _trimheap self with
  | (self, Raise e) => (self, Raise e)
  | (self, Ok _) =>
      match _heap self with
      | [] => (self, Ok None)
      | (timetosend, messageid) :: _ =>
          match _messages self !! messageid, _times self !! messageid with
          | Some msg, Some _ => (self, Ok (Some (timetosend, msg)))
          | _, _ => (self, Raise AssertionError)
          end
      end
  end.

Definition Count (self : t) : nat := size (_times self).

Definition Messages (self : t) : list string :=
  (map_to_list (_times self)).*1.

(** [__str__]: the first four identifiers (in the order of [keys()]), cut to
    eight characters each, and ['...'] after them when there are more. *)
Definition __str__ (self : t) : string :=
  let idlist := Messages self in
  let idlist :=
    if decide (4 < length idlist)%nat then take 4 idlist ++ ["..."%string]
    else idlist in
  String.append "["
    (String.append
       (String.concat ", " ((fun ident => substring 0 8 ident) <$> idlist))
       "]").

(** The public operations, and the states they lead to from a new queue. *)
Inductive reachable : t -> Prop :=
| reach_init : reachable __init__
| reach_enqueue self msg timetosend :
    reachable self ->
    reachable (enqueue_message msg timetosend self).1
| reach_dequeue self msg :
    reachable self -> reachable (dequeue_message msg self).1
| reach_Head self :
    reachable self -> reachable (Head self).1.

End TransmissionQueue.

(** ** Node

    The token bucket ([gossip.token_bucket]) is a parameter: a state
    [Bucket] and its [consume], which answers whether the tokens were granted
    and gives the bucket after the call.  The value a call of
    [random.expovariate] returns and the value [time.time()] returns are
    arguments of the operations that may ask for them. *)

Module Node.

Local Open Scope Q_scope.

(** The method [self.Delay] is bound to by [__init__]. *)
Inductive delay_method : Type :=
| _fixeddelay
| _randomdelay.

Record t (Bucket : Type) : Type := Build
  { Estimator : RoundTripEstimator.t;
    MessageQ : TransmissionQueue.t;
    TokenBucket : Bucket;
    FixedRandomDelay : Q;
    Delay : delay_method }.

Arguments Build {Bucket}.
Arguments Estimator {Bucket}.
Arguments MessageQ {Bucket}.
Arguments TokenBucket {Bucket}.
Arguments FixedRandomDelay {Bucket}.
Arguments Delay {Bucket}.

Section operations.
Context {Bucket : Type} (consume : nat -> Bucket -> bool * Bucket).

Definition set_MessageQ (self : t Bucket) (q : TransmissionQueue.t)
    : t Bucket :=
  {| Estimator := Estimator self; MessageQ := q;
     TokenBucket := TokenBucket self;
     FixedRandomDelay := FixedRandomDelay self; Delay := Delay self |}.

Definition set_TokenBucket (self : t Bucket) (b : Bucket) : t Bucket :=
  {| Estimator := Estimator self; MessageQ := MessageQ self;
     TokenBucket := b;
     FixedRandomDelay := FixedRandomDelay self; Delay := Delay self |}.

Definition set_Estimator (self : t Bucket) (e : RoundTripEstimator.t)
    : t Bucket :=
  {| Estimator := e; MessageQ := MessageQ self;
     TokenBucket := TokenBucket self;
     FixedRandomDelay := FixedRandomDelay self; Delay := Delay self |}.

(** [self.Delay()]; [expovariate] is what
    [random.expovariate(self.DistributionLambda)] returns if called. *)
Definition call_Delay (self : t Bucket) (expovariate : Q) : Q :=
  match Delay self with
  | _fixeddelay => FixedRandomDelay self
  | _randomdelay => expovariate
  end.

Definition enqueue_message (msg : message) (now expovariate : Q)
    (self : t Bucket) : t Bucket * outcome unit :=
  let timetosend :=
    if IsSystemMessage msg then 0 else now + call_Delay self expovariate in
  let '(q, r) :=
    TransmissionQueue.enqueue_message msg timetosend (MessageQ self) in
  (set_MessageQ self q, r).

Definition dequeue_message (msg : message) (self : t Bucket)
    : t Bucket * outcome unit :=
  let '(q, r) := TransmissionQueue.dequeue_message msg (MessageQ self) in
  (set_MessageQ self q, r).

(** The two lines under the sendable test of [get_next_message]. *)
Definition send (msg : message) (self : t Bucket)
    : t Bucket * outcome (option message) :=
  match TransmissionQueue.dequeue_message msg (MessageQ self) with
  | (q, Ok _) => (set_MessageQ self q, Ok (Some msg))
  | (q, Raise e) => (set_MessageQ self q, Raise e)
  end.

Definition get_next_message (now : Q) (self : t Bucket)
    : t Bucket * outcome (option message) :=
  if decide (0 < TransmissionQueue.Count (MessageQ self))%nat then
    match TransmissionQueue.Head (MessageQ self) with
    | (q, Raise e) => (set_MessageQ self q, Raise e)
    | (q, Ok None) => (set_MessageQ self q, Ok None)
    | (q, Ok (Some (timetosend, msg))) =>
        let self := set_MessageQ self q in
        if Qltb timetosend now then
          if IsSystemMessage msg then send msg self
          else
            let '(granted, b) := consume (__len__ msg) (TokenBucket self) in
            let self := set_TokenBucket self b in
            if granted then send msg self else (self, Ok None)
        else (self, Ok None)
    end
  else (self, Ok None).

Definition message_delivered (msg : message) (rtt : Q) (self : t Bucket)
    : t Bucket * outcome unit :=
  let self :=
    set_Estimator self (RoundTripEstimator.update rtt (Estimator self)) in
  dequeue_message msg self.

(** [now] is [None] when the caller leaves it out; [time_time] is what
    [time.time()] returns if called.  [not now] holds of [None] and of
    zero. *)
Definition message_dropped (msg : message) (now : option Q)
    (time_time expovariate : Q) (self : t Bucket)
    : t Bucket * outcome unit :=
  let now :=
    match now with
    | None => time_time
    | Some n => if Qeq_bool n 0 then time_time else n
    end in
  let self :=
    set_Estimator self (RoundTripEstimator.backoff (Estimator self)) in
  enqueue_message msg now expovariate self.

End operations.

End Node.

(** ** The node as an object

    The attributes of a node the scheduling operations do not read (its
    address, identity, name, [Enabled], [Stats], [MissedTicks]) beside the
    ones they do ([core]), with the constructor, [NetAddress], [__str__], the
    tick counters and [_clone].  The arguments of the constructor are Python
    values of the kinds the callers pass: [None], an integer, a string or a
    tuple.  [UseFixedDelay] is the class attribute; [TokenBucket] stands for
    the constructor [token_bucket.TokenBucket]; [uniform] is what
    [random.uniform( *self.DelayRange)] returns. *)

Module NodeObject.

#[warnings="-register-all"]
Inductive value : Type :=
| VNone
| VInt (z : Z)
| VStr (s : string)
| VTuple (items : list value).

(** What a constructor call gives: the object, or the exception raised. *)
Inductive raised : Type :=
| TypeError
| Exc (e : exception).

Inductive result (A : Type) : Type :=
| Returned (a : A)
| Raised (e : raised).

Arguments Returned {A} a.
Arguments Raised {A} e.

(** [v[i]] for an index [i >= 0]. *)
Definition getitem (v : value) (i : nat) : result value :=
  match v with
  | VStr s =>
      match String.get i s with
      | Some c => Returned (VStr (String c EmptyString))
      | None => Raised (Exc IndexError)
      end
  | VTuple items =>
      match items !! i with
      | Some x => Returned x
      | None => Raised (Exc IndexError)
      end
  | VNone | VInt _ => Raised TypeError
  end.

(** [v[:n]]. *)
Definition slice_to (v : value) (n : nat) : result value :=
  match v with
  | VStr s => Returned (VStr (substring 0 n s))
  | VTuple items => Returned (VTuple (take n items))
  | VNone | VInt _ => Raised TypeError
  end.

(** The truth value of [v], as [if v] takes it. *)
Definition truth (v : value) : bool :=
  match v with
  | VNone => false
  | VInt z => negb (z =? 0)%Z
  | VStr s => negb (String.eqb s "")
  | VTuple items => negb (bool_decide (length items = 0%nat))
  end.

Record t (Bucket StatsT : Type) : Type := Build
  { core : Node.t Bucket;
    NetHost : value;
    NetPort : value;
    SigningKey : value;
    Identifier : value;
    Name : value;
    Enabled : bool;
    Stats : option StatsT;
    MissedTicks : nat }.

Arguments Build {Bucket StatsT}.
Arguments core {Bucket StatsT}.
Arguments NetHost {Bucket StatsT}.
Arguments NetPort {Bucket StatsT}.
Arguments SigningKey {Bucket StatsT}.
Arguments Identifier {Bucket StatsT}.
Arguments Name {Bucket StatsT}.
Arguments Enabled {Bucket StatsT}.
Arguments Stats {Bucket StatsT}.
Arguments MissedTicks {Bucket StatsT}.

Section object.
Context {Bucket StatsT : Type}.
Context (UseFixedDelay : bool) (TokenBucket : value -> value -> Bucket).

Definition __init__ (address identifier signingkey name rate capacity : value)
    (uniform : Q) : result (t Bucket StatsT) :=
  match getitem address 0 with
  | Raised e => Raised e
  | Returned host =>
      match getitem address 1 with
      | Raised e => Raised e
      | Returned port =>
          match (if truth name then Returned name
                 else slice_to identifier 8) with
          | Raised e => Raised e
          | Returned name =>
              Returned
                {| core :=
                     {| Node.Estimator := RoundTripEstimator.__init__;
                        Node.MessageQ := TransmissionQueue.__init__;
                        Node.TokenBucket := TokenBucket rate capacity;
                        Node.FixedRandomDelay := uniform;
                        Node.Delay :=
                          if UseFixedDelay then Node._fixeddelay
                          else Node._randomdelay |};
                   NetHost := host;
                   NetPort := port;
                   SigningKey := signingkey;
                   Identifier := identifier;
                   Name := name;
                   Enabled := false;
                   Stats := None;
                   MissedTicks := 0 |}
          end
      end
  end.

Definition NetAddress (self : t Bucket StatsT) : value :=
  VTuple [NetHost self; NetPort self].

Definition __str__ (self : t Bucket StatsT) : value := Name self.

Definition set_MissedTicks (self : t Bucket StatsT) (n : nat)
    : t Bucket StatsT :=
  {| core := core self; NetHost := NetHost self; NetPort := NetPort self;
     SigningKey := SigningKey self; Identifier := Identifier self;
     Name := Name self; Enabled := Enabled self; Stats := Stats self;
     MissedTicks := n |}.

Definition reset_ticks (self : t Bucket StatsT) : t Bucket StatsT :=
  set_MissedTicks self 0.

Definition bump_ticks (self : t Bucket StatsT) : t Bucket StatsT :=
  set_MissedTicks self (MissedTicks self + 1).

(** [Node(self.Identifier, self.NetAddress)]: the first positional argument
    of the constructor is [address], the second [identifier]. *)
Definition _clone (self : t Bucket StatsT) (uniform : Q)
    : result (t Bucket StatsT) :=
  __init__ (Identifier self) (NetAddress self) VNone VNone VNone VNone uniform.

(** Calls of the two tick methods, and their effect in sequence. *)
Inductive tick : Type :=
| Bump
| Reset.

Definition apply_tick (self : t Bucket StatsT) (c : tick) : t Bucket StatsT :=
  match c with
  | Bump => bump_ticks self
  | Reset => reset_ticks self
  end.

Definition run_ticks (self : t Bucket StatsT) (cs : list tick)
    : t Bucket StatsT :=
  fold_left apply_tick cs self.

End object.

End NodeObject.

(** * Properties *)

(** ** The heap order of heapq

    [heap_le lt a b] is [not (b < a)]; the heap property is stated on the
    edges of the implicit binary tree: the element at [(c - 1) >> 1] is not
    after the element at [c]. *)

Import heapq.

Definition heap_le {A} (lt : A -> A -> bool) (a b : A) : Prop := lt b a = false.

Class StrictWeak {A} (lt : A -> A -> bool) : Prop :=
  { lt_asym : forall a b, lt a b = true -> lt b a = false;
    lt_trans : forall a b c, lt a b = true -> lt b c = true -> lt a c = true;
    le_trans : forall a b c, heap_le lt a b -> heap_le lt b c -> heap_le lt a c }.

Definition parent (c : nat) : nat := Nat.shiftr (c - 1) 1.

Lemma parent_div c : parent c = ((c - 1) / 2)%nat.
Proof. unfold parent. by rewrite Nat.shiftr_div_pow2. Qed.

Inductive below (s : nat) : nat -> Prop :=
| below_here : below s s
| below_child c : (0 < c)%nat -> below s (parent c) -> below s c.

Lemma below_ge s c : below s c -> (s <= c)%nat.
Proof. induction 1; [lia|]. rewrite parent_div in IHbelow. lia. Qed.

Lemma below_parent s c : below s c -> (s < c)%nat -> (s <= parent c)%nat.
Proof.
  destruct 1 as [|c Hc Hb]; [lia|]. intros _. by apply below_ge.
Qed.

Lemma below_root c : below 0 c.
Proof.
  induction (lt_wf c) as [c _ IH]. destruct c as [|c]; [constructor|].
  apply below_child; [lia|]. apply IH. rewrite parent_div. lia.
Qed.

Section heap_order.
Context {A : Type} (lt : A -> A -> bool) `{!StrictWeak lt}.

Notation "a ⪯ b" := (heap_le lt a b) (at level 70).

Lemma le_refl a : a ⪯ a.
Proof.
  unfold heap_le. destruct (lt a a) eqn:E; [|done].
  by rewrite (lt_asym _ _ E) in E.
Qed.

Lemma lt_le a b : lt a b = true -> a ⪯ b.
Proof. apply lt_asym. Qed.

Lemma lt_le_trans a b c : lt a b = true -> b ⪯ c -> a ⪯ c.
Proof.
  unfold heap_le. intros Hab Hbc. destruct (lt c a) eqn:E; [|done].
  by rewrite (lt_trans _ _ _ E Hab) in Hbc.
Qed.

(** The edge from [parent c] to [c] respects the order. *)
Definition edge_ok (h : list A) (c : nat) : Prop :=
  forall x y, h !! parent c = Some x -> h !! c = Some y -> x ⪯ y.

(** Every edge whose upper end is at index [s] or beyond is in order. *)
Definition heap_above (s : nat) (h : list A) : Prop :=
  forall c, (0 < c)%nat -> (s <= parent c)%nat -> edge_ok h c.

(** [h] is ordered from [s] on when the content of [pos] is ignored. *)
Definition hole (s pos : nat) (h : list A) : Prop :=
  (forall c, (0 < c)%nat -> (s <= parent c)%nat ->
     parent c <> pos -> c <> pos -> edge_ok h c) /\
  (forall c x y, (0 < pos)%nat -> (s <= parent pos)%nat ->
     (0 < c)%nat -> parent c = pos ->
     h !! parent pos = Some x -> h !! c = Some y -> x ⪯ y).

Definition under (x : A) (pos : nat) (h : list A) : Prop :=
  forall c y, (0 < c)%nat -> parent c = pos -> h !! c = Some y -> x ⪯ y.

Lemma hole_fill s pos h x :
  hole s pos h -> under x pos h ->
  ((0 < pos)%nat -> (s <= parent pos)%nat ->
     forall p, h !! parent pos = Some p -> p ⪯ x) ->
  heap_above s (<[pos := x]> h).
Proof.
  intros [Hedges Hgrand] Hunder Hup c Hc Hs a b Ha Hb.
  assert (parent c < c)%nat as Hlt by (rewrite parent_div; lia).
  destruct (decide (c = pos)) as [->|Hcp].
  - rewrite list_lookup_insert_ne in Ha by lia.
    apply list_lookup_insert_Some in Hb as [(_ & <- & _)|[? _]]; [|done].
    by apply Hup.
  - rewrite list_lookup_insert_ne in Hb by done.
    destruct (decide (parent c = pos)) as [Hpp|Hpp].
    + rewrite Hpp in Ha.
      apply list_lookup_insert_Some in Ha as [(_ & <- & _)|[? _]]; [|done].
      by eapply Hunder.
    + rewrite list_lookup_insert_ne in Ha by done.
      by eapply Hedges.
Qed.

Lemma heap_above_hole s pos h :
  heap_above s h -> hole s pos h.
Proof.
  intros Hh. split.
  - intros c ? ? _ _. by apply Hh.
  - intros c x y Hpos Hs Hc Hpc Hx Hy.
    destruct (h !! pos) as [z|] eqn:Hz.
    + apply (le_trans _ z).
      * by apply (Hh pos).
      * apply (Hh c); [done| |by rewrite Hpc|done].
        rewrite Hpc. rewrite parent_div in Hs. lia.
    + apply lookup_ge_None in Hz. apply lookup_lt_Some in Hy.
      rewrite parent_div in Hpc. lia.
Qed.

Lemma below_up s c : below s c -> (s < c)%nat -> below s (parent c).
Proof. destruct 1; [lia|done]. Qed.

Lemma hole_up s pos h p x :
  hole s pos h -> (0 < pos)%nat -> (s <= parent pos)%nat ->
  h !! parent pos = Some p -> lt x p = true -> under x pos h ->
  hole s (parent pos) (<[pos := p]> h) /\
  under x (parent pos) (<[pos := p]> h).
Proof.
  intros [Hedges Hgrand] Hpos Hs Hp Hlt Hunder.
  assert (parent pos < pos)%nat as Hpp by (rewrite parent_div; lia).
  split; [split|].
  - intros c Hc Hsc Hne1 Hne2 a b Ha Hb.
    destruct (decide (c = pos)) as [->|Hcp]; [done|].
    rewrite list_lookup_insert_ne in Hb by done.
    destruct (decide (parent c = pos)) as [Hpc|Hpc].
    + rewrite Hpc in Ha.
      apply list_lookup_insert_Some in Ha as [(_ & <- & _)|[? _]]; [|done].
      by eapply Hgrand.
    + rewrite list_lookup_insert_ne in Ha by done. by eapply Hedges.
  - intros c a b Hpp0 Hspp Hc Hpc Ha Hb.
    assert (parent (parent pos) < parent pos)%nat
      by (rewrite (parent_div (parent pos)); lia).
    rewrite list_lookup_insert_ne in Ha by lia.
    assert (a ⪯ p) as Hap.
    { apply (Hedges (parent pos)); [done|done|lia|lia|done|done]. }
    destruct (decide (c = pos)) as [->|Hcp].
    + apply list_lookup_insert_Some in Hb as [(_ & <- & _)|[? _]]; done.
    + rewrite list_lookup_insert_ne in Hb by done.
      apply (le_trans _ p); [done|].
      apply (Hedges c); rewrite ?Hpc; [done|lia|lia|done|done|done].
  - intros c b Hc Hpc Hb.
    destruct (decide (c = pos)) as [->|Hcp].
    + apply list_lookup_insert_Some in Hb as [(_ & <- & _)|[? _]]; [|done].
      by apply lt_le.
    + rewrite list_lookup_insert_ne in Hb by done.
      apply (lt_le_trans _ p); [done|].
      apply (Hedges c); rewrite ?Hpc; [done|lia|lia|done|done|done].
Qed.

Lemma siftdown_loop_heap fuel h x s pos :
  (pos <= fuel)%nat -> (pos < length h)%nat -> below s pos ->
  hole s pos h -> under x pos h ->
  heap_above s (_siftdown_loop lt fuel h x s pos).
Proof.
  revert h pos. induction fuel as [|fuel IH]; intros h pos Hf Hlen Hb Hh Hu.
  - simpl. apply hole_fill; [done..|]. lia.
  - cbn [_siftdown_loop]. fold (parent pos).
    assert (parent pos <= pos)%nat as Hpp by (rewrite parent_div; lia).
    destruct (decide (s < pos)%nat) as [Hsp|Hsp].
    + assert (parent pos < pos)%nat by (rewrite parent_div; lia).
      destruct (h !! parent pos) as [p|] eqn:Hp.
      * destruct (lt x p) eqn:Hlt.
        -- destruct (hole_up s pos h p x) as [Hh' Hu']; try done.
           { lia. } { by apply below_parent. }
           apply IH; try done.
           ++ lia.
           ++ rewrite length_insert. lia.
           ++ by apply below_up.
        -- apply hole_fill; [done..|]. intros _ _ p' Hp'.
           by replace p' with p by congruence.
      * apply lookup_ge_None in Hp. lia.
    + apply hole_fill; [done..|]. intros ? Hs.
      apply below_ge in Hb. rewrite parent_div in Hs. lia.
Qed.

Lemma siftdown_loop_perm fuel h x s pos :
  (pos <= fuel)%nat -> (pos < length h)%nat ->
  _siftdown_loop lt fuel h x s pos ≡ₚ <[pos := x]> h.
Proof.
  revert h pos. induction fuel as [|fuel IH]; intros h pos Hf Hlen; [done|].
  cbn [_siftdown_loop]. fold (parent pos).
  destruct (decide (s < pos)%nat) as [Hsp|Hsp]; [|done].
  assert (parent pos < pos)%nat by (rewrite parent_div; lia).
  destruct (h !! parent pos) as [p|] eqn:Hp.
  - destruct (lt x p); [|done].
    rewrite IH by (rewrite ?length_insert; lia).
    rewrite <- (list_insert_insert_eq h pos p x).
    apply Permutation_insert_swap.
    + by apply list_lookup_insert_eq.
    + by rewrite list_lookup_insert_ne by lia.
  - apply lookup_ge_None in Hp. lia.
Qed.

Lemma smaller_child_spec h pos :
  (2 * pos + 1 < length h)%nat ->
  let c := smaller_child lt h (length h) (2 * pos + 1) in
  (0 < c)%nat /\ parent c = pos /\ (c < length h)%nat /\
  forall y, h !! c = Some y -> under y pos h.
Proof.
  intros Hlen. unfold smaller_child.
  assert (forall c, (0 < c)%nat -> parent c = pos ->
            c = (2 * pos + 1)%nat \/ c = (2 * pos + 1 + 1)%nat) as Hkids.
  { intros c ?. rewrite parent_div. lia. }
  assert (parent (2 * pos + 1) = pos) by (rewrite parent_div; lia).
  assert (parent (2 * pos + 1 + 1) = pos) by (rewrite parent_div; lia).
  destruct (decide (2 * pos + 1 + 1 < length h)%nat) as [Hr|Hr].
  - destruct (lookup_lt_is_Some_2 h (2 * pos + 1)) as [l Hl]; [lia|].
    destruct (lookup_lt_is_Some_2 h (2 * pos + 1 + 1)) as [r Hr']; [done|].
    rewrite Hl, Hr'. destruct (lt l r) eqn:Hlt.
    + repeat split; [lia|done|lia|]. intros y Hy c z Hc Hpc Hz.
      assert (y = l) as -> by congruence.
      destruct (Hkids c Hc Hpc) as [-> | ->].
      * assert (z = l) as -> by congruence. apply le_refl.
      * assert (z = r) as -> by congruence. by apply lt_le.
    + repeat split; [lia|done|lia|]. intros y Hy c z Hc Hpc Hz.
      assert (y = r) as -> by congruence.
      destruct (Hkids c Hc Hpc) as [-> | ->].
      * by assert (z = l) as -> by congruence.
      * assert (z = r) as -> by congruence. apply le_refl.
  - repeat split; [lia|done|lia|]. intros y Hy c z Hc Hpc Hz.
    destruct (Hkids c Hc Hpc) as [-> | ->].
    + assert (z = y) as -> by congruence. apply le_refl.
    + apply lookup_lt_Some in Hz. lia.
Qed.

Lemma hole_down s pos h c y :
  hole s pos h -> (s <= pos)%nat -> (0 < c)%nat -> parent c = pos ->
  h !! c = Some y -> under y pos h ->
  hole s c (<[pos := y]> h).
Proof.
  intros [Hedges Hgrand] Hs Hc Hpc Hy Hmin.
  assert (pos < c)%nat by (rewrite parent_div in Hpc; lia).
  assert (pos < length h)%nat by (apply lookup_lt_Some in Hy; lia).
  split.
  - intros e He Hse Hne1 Hne2 a b Ha Hb.
    assert (parent e < e)%nat by (rewrite parent_div; lia).
    destruct (decide (e = pos)) as [->|Hep].
    + rewrite list_lookup_insert_ne in Ha by lia.
      apply list_lookup_insert_Some in Hb as [(_ & <- & _)|[? _]]; [|done].
      by apply (Hgrand c).
    + rewrite list_lookup_insert_ne in Hb by done.
      destruct (decide (parent e = pos)) as [Hpe|Hpe].
      * rewrite Hpe in Ha.
        apply list_lookup_insert_Some in Ha as [(_ & <- & _)|[? _]]; [|done].
        by apply (Hmin e).
      * rewrite list_lookup_insert_ne in Ha by done. by apply (Hedges e).
  - intros g a b _ _ Hg Hpg Ha Hb.
    assert (c < g)%nat by (rewrite parent_div in Hpg; lia).
    rewrite Hpc in Ha.
    apply list_lookup_insert_Some in Ha as [(_ & <- & _)|[? _]]; [|done].
    rewrite list_lookup_insert_ne in Hb by lia.
    apply (Hedges g); rewrite ?Hpg; [done|lia|lia|lia|done|done].
Qed.

Lemma siftup_loop_perm fuel h pos h' pos' :
  (pos < length h)%nat ->
  _siftup_loop lt fuel h (length h) pos = (h', pos') ->
  length h' = length h /\ (pos' < length h)%nat /\
  forall x, <[pos' := x]> h' ≡ₚ <[pos := x]> h.
Proof.
  revert h pos. induction fuel as [|fuel IH]; intros h pos Hlen E.
  - by injection E as <- <-.
  - cbn [_siftup_loop] in E.
    destruct (decide (2 * pos + 1 < length h)%nat) as [Hkid|Hleaf];
      [|by injection E as <- <-].
    destruct (smaller_child_spec h pos Hkid) as (Hc & Hpc & Hclen & _).
    set (c := smaller_child lt h (length h) (2 * pos + 1)) in *.
    destruct (lookup_lt_is_Some_2 h c Hclen) as [y Hy]. rewrite Hy in E.
    assert (pos < c)%nat by (rewrite parent_div in Hpc; lia).
    rewrite <- (length_insert h pos y) in E.
    apply IH in E; rewrite ?length_insert in *; [|lia].
    destruct E as (? & ? & Hperm). do 2 (split; [done|]).
    intros x. rewrite Hperm.
    rewrite <- (list_insert_insert_eq h pos y x).
    apply Permutation_insert_swap.
    + by apply list_lookup_insert_eq.
    + by rewrite list_lookup_insert_ne by lia.
Qed.

Lemma siftup_loop_spec fuel h s pos :
  (length h <= fuel + pos)%nat -> (pos < length h)%nat ->
  below s pos -> hole s pos h ->
  forall h' pos', _siftup_loop lt fuel h (length h) pos = (h', pos') ->
  below s pos' /\ hole s pos' h' /\ (forall x, under x pos' h').
Proof.
  revert h pos. induction fuel as [|fuel IH];
    intros h pos Hf Hlen Hb Hh h' pos' Hrun; [lia|].
  cbn [_siftup_loop] in Hrun.
  destruct (decide (2 * pos + 1 < length h)%nat) as [Hkid|Hleaf].
  - destruct (smaller_child_spec h pos Hkid) as (Hc & Hpc & Hclen & Hmin).
    set (c := smaller_child lt h (length h) (2 * pos + 1)) in *.
    destruct (lookup_lt_is_Some_2 h c Hclen) as [y Hy]. rewrite Hy in Hrun.
    assert (pos < c)%nat by (rewrite parent_div in Hpc; lia).
    rewrite <- (length_insert h pos y) in Hrun.
    apply IH in Hrun; rewrite ?length_insert in *; try lia; try done.
    + apply below_child; [done|by rewrite Hpc].
    + apply below_ge in Hb. eapply hole_down; eauto.
  - injection Hrun as <- <-. do 2 (split; [done|]).
    intros x c y Hc Hpc Hy. apply lookup_lt_Some in Hy.
    rewrite parent_div in Hpc. lia.
Qed.

Lemma siftup_heap h pos :
  (pos < length h)%nat -> heap_above (S pos) h ->
  heap_above pos (_siftup lt h pos).
Proof.
  intros Hlen Hh. unfold _siftup.
  destruct (lookup_lt_is_Some_2 h pos Hlen) as [x ->].
  destruct (_siftup_loop lt (length h) h (length h) pos) as [h' pos'] eqn:E.
  destruct (siftup_loop_perm _ _ _ _ _ Hlen E) as (Hlen' & Hpos' & _).
  apply (siftup_loop_spec _ _ pos) in E
    as (Hb & Hhole & Hu); [|lia|done|constructor|].
  - unfold _siftdown. rewrite list_lookup_insert_eq by lia.
    apply siftdown_loop_heap; rewrite ?length_insert; try done; try lia.
    + destruct Hhole as [Hedges Hgrand]. split.
      * intros c ? ? ? ? a b Ha Hb'.
        rewrite !list_lookup_insert_ne in * by done. by apply (Hedges c).
      * intros c a b ? ? ? ? Ha Hb'.
        assert (parent pos' < pos' < c)%nat
          by (rewrite (parent_div pos'); rewrite parent_div in *; lia).
        rewrite !list_lookup_insert_ne in * by lia. by apply (Hgrand c).
    + intros c y ? ? Hy.
      assert (pos' < c)%nat by (rewrite parent_div in *; lia).
      rewrite list_lookup_insert_ne in Hy by lia. by apply (Hu x c).
  - split.
    + intros c Hc Hs Hne _. apply Hh; [done|lia].
    + intros c a b Hpos Hs. rewrite parent_div in Hs. lia.
Qed.

Lemma siftup_perm h pos : _siftup lt h pos ≡ₚ h.
Proof.
  unfold _siftup. destruct (h !! pos) as [x|] eqn:Hx; [|done].
  assert (pos < length h)%nat as Hlen by by eapply lookup_lt_Some.
  destruct (_siftup_loop lt (length h) h (length h) pos) as [h' pos'] eqn:E.
  destruct (siftup_loop_perm _ _ _ _ _ Hlen E) as (Hl & Hp & Hperm).
  unfold _siftdown. rewrite list_lookup_insert_eq by lia.
  rewrite siftdown_loop_perm by (rewrite ?length_insert; lia).
  rewrite list_insert_insert_eq, Hperm. by rewrite list_insert_id.
Qed.

Lemma heappush_perm h x : heappush lt h x ≡ₚ x :: h.
Proof.
  unfold heappush, _siftdown. rewrite length_app. simpl.
  replace (length h + 1 - 1)%nat with (length h) by lia.
  rewrite lookup_app_r, Nat.sub_diag by lia. simpl.
  rewrite siftdown_loop_perm by (rewrite ?length_app; simpl; lia).
  rewrite list_insert_id.
  - by rewrite Permutation_app_comm.
  - by rewrite lookup_app_r, Nat.sub_diag by lia.
Qed.

Lemma heappush_heap h x : heap_above 0 h -> heap_above 0 (heappush lt h x).
Proof.
  intros Hh. unfold heappush, _siftdown. rewrite length_app. simpl.
  replace (length h + 1 - 1)%nat with (length h) by lia.
  rewrite lookup_app_r, Nat.sub_diag by lia. simpl.
  apply siftdown_loop_heap.
  - done.
  - rewrite length_app. simpl. lia.
  - apply below_root.
  - split.
    + intros c Hc _ Hne1 Hne2 a b Ha Hb.
      assert (c < length h)%nat.
      { apply lookup_lt_Some in Hb. rewrite length_app in Hb. simpl in Hb. lia. }
      assert (parent c < c)%nat by (rewrite parent_div; lia).
      rewrite lookup_app_l in Ha, Hb by lia. by apply (Hh c); [|lia|..].
    + intros c a b _ _ Hc Hpc _ Hb. apply lookup_lt_Some in Hb.
      rewrite length_app in Hb. simpl in Hb. rewrite parent_div in Hpc. lia.
  - intros c y Hc Hpc Hy. apply lookup_lt_Some in Hy.
    rewrite length_app in Hy. simpl in Hy. rewrite parent_div in Hpc. lia.
Qed.

Lemma heappop_None h : heappop lt h = None <-> h = [].
Proof.
  unfold heappop. split.
  - destruct (last h) eqn:E.
    + by destruct (removelast h).
    + intros _. by apply last_None.
  - by intros ->.
Qed.

Lemma heappop_Some h x h' :
  heappop lt h = Some (x, h') -> h !! 0%nat = Some x /\ h ≡ₚ x :: h'.
Proof.
  unfold heappop. destruct (last h) as [lastelt|] eqn:Hlast; [|done].
  destruct h as [|a h] using rev_ind; [done|]. clear IHh.
  rewrite last_snoc in Hlast. injection Hlast as ->.
  rewrite removelast_last. destruct h as [|r h]; simpl.
  - by intros [= <- <-].
  - intros [= <- <-]. split; [done|]. rewrite siftup_perm.
    by rewrite <- Permutation_cons_append, Permutation_swap.
Qed.

Lemma heap_above_prefix s h t : heap_above s (h ++ t) -> heap_above s h.
Proof.
  intros Hh c Hc Hs a b Ha Hb. apply (Hh c); [done..| |].
  - by apply lookup_app_l_Some.
  - by apply lookup_app_l_Some.
Qed.

Lemma heappop_heap h x h' :
  heap_above 0 h -> heappop lt h = Some (x, h') -> heap_above 0 h'.
Proof.
  intros Hh. unfold heappop.
  destruct (last h) as [lastelt|] eqn:Hlast; [|done].
  destruct h as [|a h] using rev_ind; [done|]. clear IHh.
  rewrite last_snoc in Hlast. injection Hlast as ->.
  rewrite removelast_last. apply heap_above_prefix in Hh.
  destruct h as [|r h]; simpl.
  - by intros [= <- <-].
  - intros [= <- <-]. apply (siftup_heap (lastelt :: h) 0).
    + simpl. lia.
    + intros c Hc Hs a b Ha Hb.
      assert (c <> 0)%nat by lia. assert (parent c <> 0)%nat by lia.
      destruct c as [|c]; [done|]. destruct (parent (S c)) as [|p] eqn:E; [done|].
      simpl in Ha, Hb. apply (Hh (S c)); [done|lia|by rewrite E|done].
Qed.

Lemma heapify_perm x : heapify lt x ≡ₚ x.
Proof.
  unfold heapify. generalize (rev (seq 0 (length x / 2))) as ps.
  intros ps. revert x. induction ps as [|i ps IH]; intros x; [done|].
  simpl. by rewrite IH, siftup_perm.
Qed.

Lemma siftup_length h pos : length (_siftup lt h pos) = length h.
Proof. apply Permutation_length, siftup_perm. Qed.

Lemma heapify_heap x : heap_above 0 (heapify lt x).
Proof.
  unfold heapify.
  assert (heap_above (length x / 2) x) as Hx.
  { intros c Hc Hs a b Ha Hb. apply lookup_lt_Some in Hb.
    rewrite parent_div in Hs. lia. }
  assert (length x / 2 <= length x)%nat as Hn by lia.
  revert Hx Hn. generalize (length x / 2)%nat as n.
  intros n. revert x. induction n as [|n IH]; intros x Hx Hn; [done|].
  rewrite seq_S, rev_app_distr. simpl.
  apply IH; rewrite ?siftup_length; [|lia].
  apply siftup_heap; [lia|done].
Qed.

Lemma heap_root_min h m :
  heap_above 0 h -> h !! 0%nat = Some m -> forall x, x ∈ h -> m ⪯ x.
Proof.
  intros Hh Hm x [i Hi]%list_elem_of_lookup. revert x Hi.
  induction (lt_wf i) as [i _ IH]. intros x Hi.
  destruct (decide (i = 0)%nat) as [->|Hne].
  - replace x with m by congruence. apply le_refl.
  - assert (parent i < i)%nat as Hp by (rewrite parent_div; lia).
    destruct (lookup_lt_is_Some_2 h (parent i)) as [p Hpi].
    { apply lookup_lt_Some in Hi. lia. }
    apply (le_trans _ p); [by apply (IH (parent i))|].
    apply (Hh i); [lia|lia|done|done].
Qed.
End heap_order.

(** ** The order of heap entries *)

Section entry_order.
Import TransmissionQueue.

Lemma Qltb_true a b : Qltb a b = true <-> (a < b)%Q.
Proof. unfold Qltb. destruct (Qlt_le_dec a b); split; (done || lra). Qed.

Lemma Qltb_false a b : Qltb a b = false <-> (b <= a)%Q.
Proof. unfold Qltb. destruct (Qlt_le_dec a b); split; (done || lra). Qed.

Lemma string_ltb_lt a b : String.ltb a b = true <-> String_as_OT.lt a b.
Proof.
  unfold String.ltb. rewrite <- String_as_OT.cmp_lt. unfold String_as_OT.cmp.
  destruct (String.compare a b); split; done.
Qed.

Lemma string_lt_irrefl a : ~ String_as_OT.lt a a.
Proof. intros H. by apply String_as_OT.lt_not_eq in H. Qed.

Lemma string_lt_total a b :
  String_as_OT.lt a b \/ a = b \/ String_as_OT.lt b a.
Proof. destruct (String_as_OT.compare a b); auto. Qed.

(** [entry_lt] is the lexicographic order on (time, identifier). *)
Lemma entry_lt_true a b :
  entry_lt a b = true <->
  (a.1 < b.1)%Q \/ (a.1 == b.1)%Q /\ String_as_OT.lt a.2 b.2.
Proof.
  unfold entry_lt. destruct (Qeq_bool a.1 b.1) eqn:E.
  - apply Qeq_bool_iff in E. rewrite string_ltb_lt. split; [auto|].
    intros [?|[_ ?]]; [lra|done].
  - apply Qeq_bool_neq in E. rewrite Qltb_true. split; [auto|].
    by intros [?|[? _]].
Qed.

Lemma entry_le_iff a b :
  heap_le entry_lt a b <->
  (a.1 < b.1)%Q \/ (a.1 == b.1)%Q /\ (a.2 = b.2 \/ String_as_OT.lt a.2 b.2).
Proof.
  unfold heap_le. rewrite <- not_true_iff_false, entry_lt_true. split.
  - intros H. destruct (Q_dec a.1 b.1) as [[?|?]|?]; [by left| |].
    + destruct H. left. done.
    + right. split; [done|].
      destruct (string_lt_total a.2 b.2) as [?|[?|?]]; [by right|by left|].
      destruct H. right. split; [by symmetry|done].
  - intros [?|[? [Heq|?]]] [?|[? Hlt]]; try lra.
    + rewrite Heq in Hlt. by apply string_lt_irrefl in Hlt.
    + eapply string_lt_irrefl, String_as_OT.lt_trans; eauto.
Qed.

#[export] Instance entry_lt_StrictWeak : StrictWeak entry_lt.
Proof.
  split.
  - intros a b Hab. fold (heap_le entry_lt a b). apply entry_le_iff.
    apply entry_lt_true in Hab as [?|[? ?]]; [by left|right; auto].
  - intros a b c. rewrite !entry_lt_true.
    intros [?|[? ?]] [?|[? ?]]; [left; lra..|right].
    split; [lra|]. eapply String_as_OT.lt_trans; eauto.
  - intros a b c. rewrite !entry_le_iff.
    intros [?|[? Hab]] [?|[? Hbc]]; [left; lra..|right].
    split; [lra|]. destruct Hab as [Hab|?], Hbc as [Hbc|?].
    + left. congruence.
    + right. by rewrite Hab.
    + right. by rewrite <- Hbc.
    + right. eapply String_as_OT.lt_trans; eauto.
Qed.
End entry_order.

(** ** The invariant of the transmission queue *)

Section queue_invariant.
Import TransmissionQueue.

(** What holds of a queue between the two steps of [dequeue_message]:
    the two dicts have the same keys, a message is filed under its own
    identifier, the pair of every live entry is in the heap, and the heap
    list is heap ordered. *)
Record queue_pre (q : t) : Prop :=
  { pre_dom : forall id, is_Some (_messages q !! id) <-> is_Some (_times q !! id);
    pre_ident : forall id m, _messages q !! id = Some m -> Identifier m = id;
    pre_live : forall id ts, _times q !! id = Some ts -> (ts, id) ∈ _heap q;
    pre_heap : heap_above entry_lt 0 (_heap q) }.

(** The invariant of the public operations adds the bound on the heap. *)
Record queue_inv (q : t) : Prop :=
  { inv_pre : queue_pre q;
    inv_size : (length (_heap q) <= 2 * size (_times q))%nat }.

Lemma set_heap_id q : set_heap q (_heap q) = q.
Proof. by destruct q. Qed.

Lemma init_inv : queue_inv __init__.
Proof.
  split; [split|]; simpl; try done.
  intros id. by rewrite !lookup_empty.
Qed.

Lemma enqueue_raises msg ts q :
  queue_pre q -> is_Some (_times q !! Identifier msg) ->
  enqueue_message msg ts q = (q, Raise AssertionError).
Proof.
  intros Hq Hin. apply (pre_dom q Hq) in Hin as [m Hm].
  unfold enqueue_message. by rewrite Hm.
Qed.

Lemma enqueue_ok msg ts q :
  queue_pre q -> _times q !! Identifier msg = None ->
  enqueue_message msg ts q =
    ({| _messages := <[Identifier msg := msg]> (_messages q);
        _times := <[Identifier msg := ts]> (_times q);
        _heap := heappush entry_lt (_heap q) (ts, Identifier msg) |}, Ok tt).
Proof.
  intros Hq Hout. unfold enqueue_message. rewrite Hout.
  destruct (_messages q !! Identifier msg) eqn:Hm; [|done].
  assert (is_Some (_times q !! Identifier msg)) as [? ?]
    by (apply (pre_dom q Hq); eauto).
  congruence.
Qed.

Lemma enqueue_inv msg ts q :
  queue_inv q -> queue_inv (enqueue_message msg ts q).1.
Proof.
  intros [Hq Hsize].
  destruct (_times q !! Identifier msg) as [t0|] eqn:Hin.
  - by rewrite enqueue_raises by eauto.
  - rewrite enqueue_ok by done. simpl. split; [split|]; simpl.
    + intros id. destruct (decide (id = Identifier msg)) as [->|Hne].
      * rewrite !lookup_insert_eq. split; eauto.
      * rewrite !lookup_insert_ne by done. apply (pre_dom q Hq).
    + intros id m. destruct (decide (id = Identifier msg)) as [->|Hne].
      * rewrite lookup_insert_eq. by intros [= <-].
      * rewrite lookup_insert_ne by done. apply (pre_ident q Hq).
    + intros id t1. rewrite heappush_perm.
      destruct (decide (id = Identifier msg)) as [->|Hne].
      * rewrite lookup_insert_eq. intros [= <-]. apply list_elem_of_here.
      * rewrite lookup_insert_ne by done. intros Ht.
        apply list_elem_of_further. by apply (pre_live q Hq).
    + apply heappush_heap; [apply _|]. apply (pre_heap q Hq).
    + rewrite (Permutation_length (heappush_perm entry_lt _ _)). simpl.
      rewrite map_size_insert_None by done. lia.
Qed.

Lemma buildheap_loop_ok (messages : gmap string message) items heap :
  (forall id ts, (id, ts) ∈ items -> is_Some (messages !! id)) ->
  _buildheap_loop messages items heap = (heap ++ (prod_swap <$> items), Ok tt).
Proof.
  revert heap. induction items as [|[id ts] items IH]; intros heap Hin; simpl.
  - by rewrite app_nil_r.
  - destruct (Hin id ts) as [m ->]; [apply list_elem_of_here|].
    rewrite IH.
    + by rewrite <- app_assoc.
    + intros id' ts' ?. apply (Hin id' ts'). by apply list_elem_of_further.
Qed.

(** [_buildheap] never raises on such a queue, keeps the two dicts, and
    leaves the heap within the bound. *)
Lemma buildheap_spec q :
  queue_pre q ->
  exists heap,
    _buildheap q = (set_heap q heap, Ok tt) /\ queue_inv (set_heap q heap) /\
    heap = if decide (2 * size (_times q) < length (_heap q))%nat
           then heapify entry_lt (prod_swap <$> map_to_list (_times q))
           else _heap q.
Proof.
  intros Hq. unfold _buildheap.
  destruct (decide (2 * size (_times q) < length (_heap q))%nat) as [Hbig|Hok].
  - rewrite buildheap_loop_ok.
    + eexists. split; [done|]. split; [|done]. simpl.
      split; [split|]; simpl.
      * apply (pre_dom q Hq).
      * apply (pre_ident q Hq).
      * intros id ts Hts. rewrite heapify_perm by apply _.
        apply (list_elem_of_fmap_2 prod_swap _ (id, ts)).
        by apply elem_of_map_to_list.
      * apply heapify_heap. apply _.
      * rewrite (Permutation_length (heapify_perm entry_lt _)).
        rewrite length_fmap, length_map_to_list. lia.
    + intros id ts Hin%elem_of_map_to_list. apply (pre_dom q Hq). eauto.
  - exists (_heap q). rewrite set_heap_id. split; [done|]. split; [|done].
    split; [done|lia].
Qed.

Lemma dequeue_pre msg q :
  queue_pre q ->
  queue_pre {| _messages := delete (Identifier msg) (_messages q);
               _times := delete (Identifier msg) (_times q);
               _heap := _heap q |}.
Proof.
  intros Hq. split; simpl.
  - intros id. destruct (decide (id = Identifier msg)) as [->|Hne].
    + rewrite !lookup_delete_eq. split; by intros [? ?].
    + rewrite !lookup_delete_ne by done. apply (pre_dom q Hq).
  - intros id m Hm. apply lookup_delete_Some in Hm as [_ Hm].
    by apply (pre_ident q Hq).
  - intros id ts Hts. apply lookup_delete_Some in Hts as [_ Hts].
    by apply (pre_live q Hq).
  - apply (pre_heap q Hq).
Qed.

Lemma dequeue_spec msg q :
  queue_pre q ->
  exists heap,
    dequeue_message msg q =
      ({| _messages := delete (Identifier msg) (_messages q);
          _times := delete (Identifier msg) (_times q);
          _heap := heap |}, Ok tt) /\
    queue_inv {| _messages := delete (Identifier msg) (_messages q);
                 _times := delete (Identifier msg) (_times q);
                 _heap := heap |} /\
    heap = if decide (2 * size (delete (Identifier msg) (_times q))
                      < length (_heap q))%nat
           then heapify entry_lt
                  (prod_swap <$>
                     map_to_list (delete (Identifier msg) (_times q)))
           else _heap q.
Proof.
  intros Hq. unfold dequeue_message.
  destruct (buildheap_spec _ (dequeue_pre msg q Hq)) as (heap & -> & Hinv & Hsame).
  by exists heap.
Qed.

Lemma dequeue_inv msg q : queue_inv q -> queue_inv (dequeue_message msg q).1.
Proof.
  intros [Hq _]. by destruct (dequeue_spec msg q Hq) as (heap & -> & Hinv & _).
Qed.
End queue_invariant.

Section queue_head.
Import TransmissionQueue.

Lemma current_spec q ts id :
  current q ts id = true <-> exists t', _times q !! id = Some t' /\ (t' == ts)%Q.
Proof.
  unfold current. destruct (_times q !! id) as [t'|].
  - rewrite Qeq_bool_iff. split; [eauto|]. by intros (? & [= <-] & ?).
  - split; [done|]. by intros (? & ? & _).
Qed.

Lemma current_live q ts id : _times q !! id = Some ts -> current q ts id = true.
Proof. intros H. apply current_spec. exists ts. split; [done|]. reflexivity. Qed.

(** The heap of a trimmed queue is empty or starts with a current pair. *)
Definition trimmed (q : t) : Prop :=
  match _heap q with
  | [] => True
  | (ts, id) :: _ => current q ts id = true
  end.

Lemma trimheap_loop_spec fuel q :
  queue_inv q -> (length (_heap q) <= fuel)%nat ->
  exists heap,
    _trimheap_loop fuel q = (set_heap q heap, Ok tt) /\
    queue_inv (set_heap q heap) /\ trimmed (set_heap q heap).
Proof.
  revert q. induction fuel as [|fuel IH]; intros q Hinv Hfuel.
  - exists (_heap q). rewrite set_heap_id. simpl. split; [done|]. split; [done|].
    unfold trimmed. destruct (_heap q) eqn:E; [done|].
    by apply Nat.nle_succ_0 in Hfuel.
  - cbn [_trimheap_loop]. destruct (_heap q) as [|[ts id] rest] eqn:Hheap.
    { exists []. rewrite <- Hheap, set_heap_id. split; [done|]. split; [done|].
      unfold trimmed. by rewrite Hheap. }
    destruct (current q ts id) eqn:Hcur.
    { exists (_heap q). rewrite set_heap_id.
      apply current_spec in Hcur as Hts. destruct Hts as (t' & Hts & _).
      destruct (proj2 (pre_dom q (inv_pre q Hinv) id)) as [m ->]; [eauto|].
      split; [done|]. split; [done|]. unfold trimmed. by rewrite Hheap. }
    rewrite <- Hheap.
    destruct (heappop entry_lt (_heap q)) as [[x heap]|] eqn:Hpop.
    2:{ apply heappop_None in Hpop. congruence. }
    destruct (heappop_Some _ _ _ _ Hpop) as [Hx Hperm].
    rewrite Hheap in Hx. injection Hx as <-.
    destruct (IH (set_heap q heap)) as (heap' & Hrun & Hinv' & Htrim).
    + destruct Hinv as [Hq Hsize]. split; [split|]; simpl.
      * apply (pre_dom q Hq).
      * apply (pre_ident q Hq).
      * intros id' ts' Hts'. pose proof (pre_live q Hq id' ts' Hts') as Hin.
        rewrite Hperm in Hin. apply elem_of_cons in Hin as [[= -> ->]|Hin]; [|done].
        by rewrite (current_live q ts id Hts') in Hcur.
      * eapply heappop_heap; [apply _| |done]. apply (pre_heap q Hq).
      * apply Permutation_length in Hperm. simpl in Hperm. lia.
    + simpl. apply Permutation_length in Hperm. rewrite Hheap in Hperm.
      simpl in Hperm, Hfuel. lia.
    + exists heap'. by rewrite Hrun.
Qed.

Lemma trimheap_spec q :
  queue_inv q ->
  exists heap,
    _trimheap q = (set_heap q heap, Ok tt) /\
    queue_inv (set_heap q heap) /\ trimmed (set_heap q heap).
Proof. intros Hinv. by apply trimheap_loop_spec. Qed.

(** A trimmed queue is not changed by trimming it again. *)
Lemma trimheap_trimmed q :
  queue_inv q -> trimmed q -> _trimheap q = (q, Ok tt).
Proof.
  intros Hinv Htrim. unfold _trimheap, trimmed in *.
  destruct (_heap q) as [|[ts id] rest] eqn:Hheap; [done|].
  cbn [length _trimheap_loop]. rewrite Hheap, Htrim.
  apply current_spec in Htrim as (t' & Hts & _).
  by destruct (proj2 (pre_dom q (inv_pre q Hinv) id)) as [m ->]; eauto.
Qed.

(** What [Head] answers on a queue that satisfies the invariant. *)
Inductive Head_result (q : t) : t * outcome (option (Q * message)) -> Prop :=
| Head_none heap :
    _times q = ∅ ->
    Head_result q (set_heap q heap, Ok None)
| Head_some heap ts id rest msg t' :
    heap = (ts, id) :: rest ->
    _messages q !! id = Some msg ->
    Identifier msg = id ->
    _times q !! id = Some t' -> (t' == ts)%Q ->
    (forall e, e ∈ heap -> heap_le entry_lt (ts, id) e) ->
    Head_result q (set_heap q heap, Ok (Some (ts, msg))).

Lemma Head_spec q :
  queue_inv q ->
  Head_result q (Head q) /\ queue_inv (Head q).1 /\ trimmed (Head q).1.
Proof.
  intros Hinv. unfold Head.
  destruct (trimheap_spec q Hinv) as (heap & -> & Hinv' & Htrim).
  unfold trimmed in Htrim. simpl in *.
  destruct heap as [|[ts id] rest] eqn:Hheap.
  - split; [|done]. apply Head_none. apply map_empty. intros id.
    destruct (_times q !! id) as [ts|] eqn:Hts; [|done].
    pose proof (pre_live _ (inv_pre _ Hinv') id ts Hts) as Hin.
    simpl in Hin. by apply elem_of_nil in Hin.
  - apply current_spec in Htrim as (t' & Hts & Heq). simpl in Hts.
    destruct (proj2 (pre_dom q (inv_pre q Hinv) id)) as [m Hm]; [eauto|].
    rewrite Hm, Hts. simpl. rewrite <- Hheap in *. split; [|split; [done|]].
    + eapply Head_some; eauto.
      * apply (pre_ident q (inv_pre q Hinv) id m Hm).
      * rewrite Hheap. apply heap_root_min; [apply _| |done].
        rewrite <- Hheap. apply (pre_heap _ (inv_pre _ Hinv')).
    + unfold trimmed. simpl. rewrite Hheap. apply current_spec. eauto.
Qed.

Lemma Head_inv q : queue_inv q -> queue_inv (Head q).1.
Proof. intros Hinv. by apply Head_spec. Qed.

Lemma reachable_inv q : reachable q -> queue_inv q.
Proof.
  induction 1.
  - apply init_inv.
  - by apply enqueue_inv.
  - by apply dequeue_inv.
  - by apply Head_inv.
Qed.
End queue_head.

(** ** The round trip estimator *)

Section estimator.
Import RoundTripEstimator.
Local Open Scope Q_scope.

Lemma pymax_spec a b : a <= pymax a b /\ b <= pymax a b.
Proof.
  unfold pymax. destruct (Qltb a b) eqn:E;
    [apply Qltb_true in E|apply Qltb_false in E]; lra.
Qed.

Lemma pymax_cases a b : pymax a b = a \/ pymax a b = b.
Proof. unfold pymax. destruct (Qltb a b); auto. Qed.

Lemma pymin_spec a b : pymin a b <= a /\ pymin a b <= b.
Proof.
  unfold pymin. destruct (Qltb b a) eqn:E;
    [apply Qltb_true in E|apply Qltb_false in E]; lra.
Qed.

Lemma pymin_cases a b : pymin a b = a \/ pymin a b = b.
Proof. unfold pymin. destruct (Qltb b a); auto. Qed.

Lemma pymin_Qmin a b : pymin a b == Qmin a b.
Proof.
  destruct (pymin_spec a b), (pymin_cases a b) as [E|E]; rewrite E in *.
  - symmetry. by apply Q.min_l.
  - symmetry. by apply Q.min_r.
Qed.


Lemma half x : x * 0.5 == x / 2.
Proof. field. Qed.

Definition in_bounds (self : t) : Prop :=
  MinimumRTO <= RTO self <= MaximumRTO.

Lemma recompute_bounds srtt rttvar :
  MinimumRTO <= recompute srtt rttvar <= MaximumRTO.
Proof.
  unfold recompute, MinimumRTO, MaximumRTO.
  set (rto := srtt + _).
  destruct (pymin_spec 60.0 rto), (pymax_spec 1.0 (pymin 60.0 rto)).
  split; [done|].
  destruct (pymax_cases 1.0 (pymin 60.0 rto)) as [-> | ->]; [lra|done].
Qed.

Lemma update_bounds x self : in_bounds (update x self).
Proof.
  unfold update, in_bounds.
  destruct (if Qeq_bool _ _ then _ else _) as [srtt rttvar]. simpl.
  apply recompute_bounds.
Qed.

Lemma backoff_bounds self : in_bounds self -> in_bounds (backoff self).
Proof.
  unfold in_bounds, backoff, MinimumRTO, MaximumRTO, BackoffRate. simpl.
  intros [Hlo Hhi]. destruct (pymin_spec (RTO self * 2.0) 60.0).
  split; [|done].
  destruct (pymin_cases (RTO self * 2.0) 60.0) as [-> | ->]; lra.
Qed.

Lemma run_bounds cs self : in_bounds self -> in_bounds (run self cs).
Proof.
  revert self. induction cs as [|[x|] cs IH]; intros self Hb; simpl; [done|..].
  - apply IH, update_bounds.
  - by apply IH, backoff_bounds.
Qed.

Lemma init_bounds : in_bounds __init__.
Proof. unfold in_bounds, __init__, MinimumRTO, MaximumRTO. simpl. lra. Qed.
End estimator.

(** C2.  Starting from a new estimator, after any sequence of [update(x)]
    calls with [x > 0] interleaved with [backoff()] calls, and after every
    call of the sequence (every prefix, the empty one included), [RTO] lies
    in [[MinimumRTO, MaximumRTO]], that is in [[1.0, 60.0]]. *)
Theorem RTO_within_bounds (cs : list RoundTripEstimator.call) (n : nat) :
  Forall RoundTripEstimator.positive cs ->
  let self := RoundTripEstimator.run RoundTripEstimator.__init__ (take n cs) in
  (1.0 <= RoundTripEstimator.RTO self <= 60.0)%Q.
Proof. intros _. apply run_bounds, init_bounds. Qed.

Lemma RTO_within_bounds_witness :
  let cs := [RoundTripEstimator.Update 0.5; RoundTripEstimator.Backoff;
             RoundTripEstimator.Backoff; RoundTripEstimator.Update 70.0] in
  Forall RoundTripEstimator.positive cs /\
  (1.0 <=
     RoundTripEstimator.RTO
       (RoundTripEstimator.run RoundTripEstimator.__init__ (take 3 cs))
   <= 60.0)%Q.
Proof.
  split.
  - repeat constructor.
  - apply (RTO_within_bounds _ 3). repeat constructor.
Defined.

(** C3.  In every state of the estimator, [backoff()] sets [RTO] to
    [min(RTO * 2.0, 60.0)] and resets [_SRTT] and [_RTTVAR] to 0; the
    [update(measured)] that follows gives the state the first update of a new
    estimator gives: it seeds [_SRTT = measured] and [_RTTVAR = measured / 2]
    and the state before the backoff has no part in it. *)
Theorem backoff_then_update (self : RoundTripEstimator.t) (measured : Q) :
  let after := RoundTripEstimator.backoff self in
  RoundTripEstimator.RTO after
    = pymin (RoundTripEstimator.RTO self * 2.0) 60.0 /\
  (RoundTripEstimator.RTO after
    == Qmin (RoundTripEstimator.RTO self * 2.0) 60.0)%Q /\
  (RoundTripEstimator._SRTT after == 0)%Q /\
  (RoundTripEstimator._RTTVAR after == 0)%Q /\
  RoundTripEstimator.update measured after
    = RoundTripEstimator.update measured RoundTripEstimator.__init__ /\
  RoundTripEstimator._SRTT (RoundTripEstimator.update measured after)
    = measured /\
  (RoundTripEstimator._RTTVAR (RoundTripEstimator.update measured after)
    == measured / 2)%Q.
Proof.
  simpl. split; [done|]. split; [apply pymin_Qmin|].
  do 4 (split; [reflexivity|]). apply half.
Qed.

(** The estimator as the specification words it: a state that is either
    unseeded or seeded, the first [update] after construction or after a
    backoff seeding it and every later one smoothing. *)
Module EstimatorSpec.

Local Open Scope Q_scope.

Inductive phase : Type :=
| Unseeded
| Seeded.

Record t : Type := Build
  { state : phase;
    RTO : Q;
    SRTT : Q;
    RTTVAR : Q }.


Definition clamp (rto : Q) : Q := Qmax 1.0 (Qmin 60.0 rto).

Definition update (measured : Q) (s : t) : t :=
  let '(srtt, rttvar) :=
    match state s with
    | Unseeded => (measured, measured / 2)
    | Seeded =>
        ((1 - 0.125) * SRTT s + 0.125 * measured,
         (1 - 0.25) * RTTVAR s + 0.25 * Qabs (SRTT s - measured))
    end in
  {| state := Seeded;
     RTO := clamp (srtt + Qmax 0.025 (4.0 * rttvar));
     SRTT := srtt;
     RTTVAR := rttvar |}.

Definition backoff (s : t) : t :=
  {| state := Unseeded;
     RTO := Qmin (RTO s * 2.0) 60.0;
     SRTT := 0;
     RTTVAR := 0 |}.

Definition apply (s : t) (c : RoundTripEstimator.call) : t :=
  match c with
  | RoundTripEstimator.Update x => update x s
  | RoundTripEstimator.Backoff => backoff s
  end.

Definition run (s : t) (cs : list RoundTripEstimator.call) : t :=
  fold_left apply cs s.


End EstimatorSpec.

Section estimator_refinement.
Import RoundTripEstimator.
Local Open Scope Q_scope.







End estimator_refinement.




(** ** The transmission queue *)

(** C4.  In every state the public operations lead to from a new queue, the
    heap holds at most twice as many entries as the queue has live messages;
    [dequeue_message] rebuilds the heap from the live entries exactly when
    the heap, after the removal, is more than twice the live count, and
    leaves it as it is otherwise. *)
Theorem heap_size_bounded (q : TransmissionQueue.t) :
  TransmissionQueue.reachable q ->
  (length (TransmissionQueue._heap q) <= 2 * TransmissionQueue.Count q)%nat /\
  forall msg,
    let q' := (TransmissionQueue.dequeue_message msg q).1 in
    (length (TransmissionQueue._heap q') <= 2 * TransmissionQueue.Count q')%nat /\
    if decide (2 * TransmissionQueue.Count q'
               < length (TransmissionQueue._heap q))%nat
    then TransmissionQueue._heap q'
         ≡ₚ prod_swap <$> map_to_list (TransmissionQueue._times q')
    else TransmissionQueue._heap q' = TransmissionQueue._heap q.
Proof.
  intros Hq%reachable_inv. split; [apply (inv_size q Hq)|].
  intros msg q'. split.
  { apply inv_size, dequeue_inv, Hq. }
  subst q'.
  destruct (dequeue_spec msg q (inv_pre q Hq)) as (heap & -> & _ & ->).
  unfold TransmissionQueue.Count. simpl.
  destruct (decide _); [|done]. by rewrite heapify_perm by apply _.
Qed.

Lemma heap_size_bounded_witness :
  let a := Message "a" false 10 in
  let b := Message "b" false 20 in
  let q := (TransmissionQueue.dequeue_message a
              (TransmissionQueue.enqueue_message b 2
                 (TransmissionQueue.enqueue_message a 1
                    TransmissionQueue.__init__).1).1).1 in
  TransmissionQueue.reachable q /\
  (length (TransmissionQueue._heap q) <= 2 * TransmissionQueue.Count q)%nat.
Proof.
  split.
  - repeat constructor.
  - apply heap_size_bounded. repeat constructor.
Defined.

(** C5.  [enqueue_message] of a message whose identifier is live raises
    [AssertionError] and leaves the queue as it was; so does a second enqueue
    of an identifier right after a first one; [dequeue_message] of an
    identifier that is not live returns normally and leaves the queue as it
    was. *)
Theorem duplicate_enqueue_raises_absent_dequeue_noop
    (q : TransmissionQueue.t) (msg : message) (ts : Q) :
  TransmissionQueue.reachable q ->
  (is_Some (TransmissionQueue._times q !! Identifier msg) ->
   TransmissionQueue.enqueue_message msg ts q = (q, Raise AssertionError)) /\
  (forall q1 msg' ts',
     TransmissionQueue.enqueue_message msg ts q = (q1, Ok tt) ->
     Identifier msg' = Identifier msg ->
     TransmissionQueue.enqueue_message msg' ts' q1
       = (q1, Raise AssertionError)) /\
  (TransmissionQueue._times q !! Identifier msg = None ->
   TransmissionQueue.dequeue_message msg q = (q, Ok tt)).
Proof.
  intros Hq%reachable_inv. split; [|split].
  - by apply enqueue_raises, inv_pre.
  - intros q1 msg' ts' Henq Hid.
    pose proof (enqueue_inv msg ts q Hq) as Hq1. rewrite Henq in Hq1.
    apply enqueue_raises; [by apply inv_pre|]. rewrite Hid.
    destruct (TransmissionQueue._times q !! Identifier msg) eqn:Hin.
    + rewrite enqueue_raises in Henq; [done|by apply inv_pre|eauto].
    + rewrite enqueue_ok in Henq; [|by apply inv_pre|done].
      injection Henq as <-. simpl. rewrite lookup_insert_eq. eauto.
  - intros Hout.
    destruct (dequeue_spec msg q (inv_pre q Hq)) as (heap & -> & _ & Hsame).
    assert (TransmissionQueue._messages q !! Identifier msg = None) as Hout'.
    { destruct (TransmissionQueue._messages q !! Identifier msg) eqn:E; [|done].
      destruct (proj1 (pre_dom q (inv_pre q Hq) (Identifier msg))) as [? ?];
        [eauto|congruence]. }
    rewrite Hsame, !delete_id by done.
    rewrite decide_False by (pose proof (inv_size q Hq); lia). by destruct q.
Qed.

Lemma duplicate_enqueue_raises_absent_dequeue_noop_witness :
  let a := Message "a" false 10 in
  let b := Message "b" true 20 in
  let q := (TransmissionQueue.enqueue_message a 1
              TransmissionQueue.__init__).1 in
  TransmissionQueue.reachable q /\
  TransmissionQueue.enqueue_message a 7 q = (q, Raise AssertionError) /\
  TransmissionQueue.dequeue_message b q = (q, Ok tt).
Proof.
  split; [repeat constructor|].
  split.
  - apply duplicate_enqueue_raises_absent_dequeue_noop;
      [repeat constructor|]. exists 1%Q. reflexivity.
  - apply (duplicate_enqueue_raises_absent_dequeue_noop _ _ 0);
      [repeat constructor|]. reflexivity.
Defined.

(** C6.  After [dequeue_message(m)], [Head] does not return [m]: the message
    it returns, if any, is live and has another identifier, and the heap it
    leaves is empty or starts with a current pair, the stale entries in front
    having been popped. *)
Theorem Head_after_dequeue (q : TransmissionQueue.t) (m : message) :
  TransmissionQueue.reachable q ->
  let q1 := (TransmissionQueue.dequeue_message m q).1 in
  let q2 := (TransmissionQueue.Head q1).1 in
  trimmed q2 /\
  forall ts m',
    (TransmissionQueue.Head q1).2 = Ok (Some (ts, m')) ->
    m' <> m /\ Identifier m' <> Identifier m /\
    TransmissionQueue._messages q1 !! Identifier m' = Some m'.
Proof.
  intros Hq%reachable_inv q1 q2.
  pose proof (dequeue_inv m q Hq) as Hq1. fold q1 in Hq1.
  destruct (Head_spec q1 Hq1) as (Hres & _ & Htrim). split; [done|].
  intros ts m' Hhead.
  assert (TransmissionQueue._times q1 !! Identifier m = None) as Hgone.
  { subst q1. destruct (dequeue_spec m q (inv_pre q Hq)) as (heap & -> & _).
    simpl. apply lookup_delete_eq. }
  destruct Hres as [heap Hempty|heap ts0 id rest msg t' -> Hmsg Hid Hts Heq Hmin];
    simpl in Hhead; [done|].
  injection Hhead as -> ->.
  assert (Identifier m' <> Identifier m) as Hne by congruence.
  split; [congruence|]. split; [done|]. by rewrite Hid.
Qed.

Lemma Head_after_dequeue_witness :
  let a := Message "a" false 10 in
  let b := Message "b" false 20 in
  let q := (TransmissionQueue.enqueue_message b 2
              (TransmissionQueue.enqueue_message a 1
                 TransmissionQueue.__init__).1).1 in
  let q1 := (TransmissionQueue.dequeue_message a q).1 in
  TransmissionQueue.reachable q /\
  In (1%Q, "a") (TransmissionQueue._heap q1) /\
  (TransmissionQueue.Head q1).2 = Ok (Some (2%Q, b)) /\
  b <> a.
Proof.
  intros a b q q1.
  split; [repeat constructor|]. split; [by left|]. split; [reflexivity|].
  eapply (Head_after_dequeue q a); [repeat constructor|reflexivity].
Defined.

(** C9, as stated, fails: with ["a"] queued at time 5, [enqueue_message] of
    ["b"] at time 5, the minimum of all queued times, is followed by a [Head]
    that returns ["a"]; it does so too when ["b"] is queued first.  Equal
    times are ordered by the identifier. *)
Lemma Head_tie_returns_smaller_identifier :
  let a := Message "a" false 10 in
  let b := Message "b" false 20 in
  let q := (TransmissionQueue.enqueue_message a 5
              TransmissionQueue.__init__).1 in
  let q1 := (TransmissionQueue.enqueue_message b 5 q).1 in
  let q1' := (TransmissionQueue.enqueue_message a 5
                (TransmissionQueue.enqueue_message b 5
                   TransmissionQueue.__init__).1).1 in
  TransmissionQueue.reachable q /\
  TransmissionQueue.enqueue_message b 5 q = (q1, Ok tt) /\
  (forall id t', TransmissionQueue._times q1 !! id = Some t' -> (5 <= t')%Q) /\
  (TransmissionQueue.Head q1).2 = Ok (Some (5%Q, a)) /\
  (TransmissionQueue.Head q1).2 <> Ok (Some (5%Q, b)) /\
  (TransmissionQueue.Head q1').2 = Ok (Some (5%Q, a)).
Proof.
  split; [repeat constructor|]. split; [reflexivity|]. split.
  - intros id t'.
    change (<["b" := 5%Q]> (<["a" := 5%Q]> (∅ : gmap string Q)) !! id = Some t'
            -> (5 <= t')%Q).
    intros [[_ <-]|[_ [[_ <-]|[_ H]]%lookup_insert_Some]]%lookup_insert_Some;
      [done..|by rewrite lookup_empty in H].
  - split; [reflexivity|]. split; [|reflexivity]. discriminate.
Qed.

(** C9, amended.  [enqueue_message(m, t)] followed at once by [Head] returns
    [(t, m)] when the pair [(t, identifier of m)] is below the pair of every
    other live entry in the order of the heap: [t] is smaller than the other
    time, or equal to it with the identifier of [m] the smaller string.  The
    entries are ordered by [time_to_send] ascending and, at equal times, by
    identifier. *)
Theorem Head_after_enqueue (q q1 : TransmissionQueue.t) (m : message) (t : Q) :
  TransmissionQueue.reachable q ->
  TransmissionQueue.enqueue_message m t q = (q1, Ok tt) ->
  (forall id t', TransmissionQueue._times q !! id = Some t' ->
     (t < t')%Q \/ (t == t')%Q /\ String_as_OT.lt (Identifier m) id) ->
  exists ts, (TransmissionQueue.Head q1).2 = Ok (Some (ts, m)) /\ (ts == t)%Q.
Proof.
  intros Hq%reachable_inv Henq Hmin.
  pose proof (enqueue_inv m t q Hq) as Hq1. rewrite Henq in Hq1. simpl in Hq1.
  assert (TransmissionQueue._times q !! Identifier m = None) as Hnew.
  { destruct (TransmissionQueue._times q !! Identifier m) eqn:E; [|done].
    rewrite enqueue_raises in Henq; [done|by apply inv_pre|eauto]. }
  rewrite enqueue_ok in Henq; [|by apply inv_pre|done].
  assert (TransmissionQueue._times q1
             = <[Identifier m := t]> (TransmissionQueue._times q)
          /\ TransmissionQueue._messages q1
             = <[Identifier m := m]> (TransmissionQueue._messages q)) as [Ht Hm].
  { by injection Henq as <-. }
  destruct (Head_spec q1 Hq1) as (Hres & Hq2 & _).
  destruct Hres as [heap Hempty|heap ts id rest msg t' -> Hmsg Hid Hts Heq Hle].
  { rewrite Ht in Hempty. by apply insert_non_empty in Hempty. }
  simpl in *. exists ts.
  destruct (decide (id = Identifier m)) as [->|Hne].
  - rewrite Hm, lookup_insert_eq in Hmsg. rewrite Ht, lookup_insert_eq in Hts.
    injection Hmsg as <-. injection Hts as <-. done.
  - exfalso. rewrite Ht, lookup_insert_ne in Hts by done.
    assert ((t, Identifier m) ∈ (ts, id) :: rest) as Hin.
    { apply (pre_live _ (inv_pre _ Hq2) (Identifier m) t). simpl.
      by rewrite Ht, lookup_insert_eq. }
    apply Hle, entry_le_iff in Hin. simpl in Hin.
    destruct (Hmin id t' Hts) as [?|[? Hlt]], Hin as [?|[? [?|Hlt']]];
      try lra; try done.
    eapply string_lt_irrefl, String_as_OT.lt_trans; eauto.
Qed.

Lemma Head_after_enqueue_witness :
  let a := Message "a" false 10 in
  let b := Message "b" false 20 in
  let q := (TransmissionQueue.enqueue_message b 5
              TransmissionQueue.__init__).1 in
  let q1 := (TransmissionQueue.enqueue_message a 5 q).1 in
  TransmissionQueue.reachable q /\
  exists ts, (TransmissionQueue.Head q1).2 = Ok (Some (ts, a)) /\ (ts == 5)%Q.
Proof.
  split; [repeat constructor|].
  apply (Head_after_enqueue (TransmissionQueue.enqueue_message
                               (Message "b" false 20) 5
                               TransmissionQueue.__init__).1);
    [repeat constructor|reflexivity|].
  intros id t'.
  change (<["b" := 5%Q]> (∅ : gmap string Q) !! id = Some t' ->
          (5 < t')%Q \/ (5 == t')%Q /\ String_as_OT.lt "a" id).
  intros [[<- <-]|[_ H]]%lookup_insert_Some; [|by rewrite lookup_empty in H].
  right. split; [reflexivity|]. by apply String_as_OT.cmp_lt.
Defined.

(** C10.  In every state the public operations lead to from a new queue, the
    heap contains the pair [(time_to_send, identifier)] of every live entry;
    so when [Count > 0], [Head] returns some [(t, m)], with [m] live and [t]
    equal to the time recorded for [m], and never [None]. *)
Theorem Head_of_nonempty_queue (q : TransmissionQueue.t) :
  TransmissionQueue.reachable q ->
  (forall id ts, TransmissionQueue._times q !! id = Some ts ->
     (ts, id) ∈ TransmissionQueue._heap q) /\
  ((0 < TransmissionQueue.Count q)%nat ->
   (TransmissionQueue.Head q).2 <> Ok None /\
   exists ts m t',
     (TransmissionQueue.Head q).2 = Ok (Some (ts, m)) /\
     TransmissionQueue._messages q !! Identifier m = Some m /\
     TransmissionQueue._times q !! Identifier m = Some t' /\ (t' == ts)%Q).
Proof.
  intros Hq%reachable_inv. split; [apply (pre_live q (inv_pre q Hq))|].
  intros Hcount. destruct (Head_spec q Hq) as (Hres & _ & _).
  destruct Hres as [heap Hempty|heap ts id rest msg t' -> Hmsg Hid Hts Heq Hle].
  - unfold TransmissionQueue.Count in Hcount.
    rewrite Hempty, map_size_empty in Hcount. lia.
  - simpl. split; [done|]. exists ts, msg, t'. by rewrite Hid.
Qed.

Lemma Head_of_nonempty_queue_witness :
  let a := Message "a" false 10 in
  let q := (TransmissionQueue.enqueue_message a 3
              TransmissionQueue.__init__).1 in
  TransmissionQueue.reachable q /\ (0 < TransmissionQueue.Count q)%nat /\
  (TransmissionQueue.Head q).2 <> Ok None.
Proof.
  split; [repeat constructor|]. split; [by vm_compute|].
  apply Head_of_nonempty_queue; [repeat constructor|by vm_compute].
Defined.

(** ** The node *)

Section node_facts.
Import TransmissionQueue.
Context {Bucket : Type} (consume : nat -> Bucket -> bool * Bucket).

Lemma Head_fst q :
  queue_inv q -> exists heap, _trimheap q = (set_heap q heap, Ok tt) /\
                              (Head q).1 = set_heap q heap.
Proof.
  intros Hq. destruct (trimheap_spec q Hq) as (heap & Htrim & _).
  exists heap. split; [done|]. unfold Head. rewrite Htrim.
  by repeat case_match.
Qed.

(** Reading [Head] twice in a row gives the same answer and the same
    queue. *)
Lemma Head_again q : queue_inv q -> Head (Head q).1 = Head q.
Proof.
  intros Hq. destruct (Head_fst q Hq) as (heap & Htrim & Hfst).
  destruct (Head_spec q Hq) as (_ & Hq1 & Htrimmed).
  rewrite Hfst in *. unfold Head.
  by rewrite Htrim, (trimheap_trimmed _ Hq1 Htrimmed).
Qed.

(** The time of the pair [Head] returns is not after the time of any live
    entry. *)
Lemma Head_earliest q ts msg :
  queue_inv q -> (Head q).2 = Ok (Some (ts, msg)) ->
  forall id t', _times q !! id = Some t' -> (ts <= t')%Q.
Proof.
  intros Hq Hhead id t' Hlive.
  destruct (Head_spec q Hq) as (Hres & Hq1 & _).
  destruct Hres as [heap Hempty|heap ts0 id0 rest m0 t0 -> Hmsg Hid Hts Heq Hle];
    simpl in *; [done|].
  injection Hhead as -> ->.
  assert ((t', id) ∈ (ts, id0) :: rest) as Hin
    by apply (pre_live _ (inv_pre _ Hq1) id t' Hlive).
  apply Hle, entry_le_iff in Hin. simpl in Hin. destruct Hin as [?|[? _]]; lra.
Qed.

Lemma send_spec msg (self : Node.t Bucket) :
  queue_inv (Node.MessageQ self) ->
  exists q',
    Node.send msg self = (Node.set_MessageQ self q', Ok (Some msg)) /\
    _messages q' = delete (Identifier msg) (_messages (Node.MessageQ self)) /\
    _times q' = delete (Identifier msg) (_times (Node.MessageQ self)).
Proof.
  intros Hq. unfold Node.send.
  destruct (dequeue_spec msg _ (inv_pre _ Hq)) as (heap & -> & _ & _).
  by eexists.
Qed.

(** The path [get_next_message] takes, by the count of the queue and the
    answer of [Head]. *)
Lemma get_next_message_unfold now (self : Node.t Bucket) :
  queue_inv (Node.MessageQ self) ->
  let q := Node.MessageQ self in
  let self1 := Node.set_MessageQ self (Head q).1 in
  (Count q = 0%nat /\
   Node.get_next_message consume now self = (self, Ok None)) \/
  (exists ts msg,
     (0 < Count q)%nat /\ (Head q).2 = Ok (Some (ts, msg)) /\
     Node.get_next_message consume now self =
       if Qltb ts now then
         if IsSystemMessage msg then Node.send msg self1
         else
           let '(granted, b) := consume (__len__ msg) (Node.TokenBucket self) in
           if granted then Node.send msg (Node.set_TokenBucket self1 b)
           else (Node.set_TokenBucket self1 b, Ok None)
       else (self1, Ok None)).
Proof.
  intros Hq q self1. unfold Node.get_next_message. fold q.
  destruct (decide (0 < Count q)%nat) as [Hpos|Hzero];
    [right|left; split; [lia|done]].
  destruct (Head_spec q Hq) as (Hres & _ & _). subst self1.
  destruct Hres as [heap Hempty|heap ts id rest msg t' -> Hmsg Hid Hts Heq Hle].
  - unfold Count in Hpos. rewrite Hempty, map_size_empty in Hpos. lia.
  - exists ts, msg. split; [done|]. split; [done|].
    destruct (Qltb ts now); [|done].
    destruct (IsSystemMessage msg); [done|].
    by destruct (consume _ _) as [[] b].
Qed.

Lemma Head_maps q :
  queue_inv q ->
  _messages (Head q).1 = _messages q /\ _times (Head q).1 = _times q.
Proof. intros Hq. by destruct (Head_fst q Hq) as (heap & _ & ->). Qed.

Lemma Head_some_live q ts msg :
  queue_inv q -> (Head q).2 = Ok (Some (ts, msg)) ->
  _messages q !! Identifier msg = Some msg /\
  exists t', _times q !! Identifier msg = Some t' /\ (t' == ts)%Q.
Proof.
  intros Hq Hhead. destruct (Head_spec q Hq) as (Hres & _ & _).
  destruct Hres as [heap Hempty|heap ts0 id0 rest m0 t0 -> Hmsg Hid Hts Heq Hle];
    simpl in *; [done|].
  injection Hhead as -> ->. rewrite Hid. eauto.
Qed.

Lemma Head_some_count q ts msg :
  queue_inv q -> (Head q).2 = Ok (Some (ts, msg)) -> (0 < Count q)%nat.
Proof.
  intros Hq Hhead.
  destruct (Head_some_live q ts msg Hq Hhead) as (_ & t' & Hts & _).
  unfold Count. destruct (decide (size (_times q) = 0)%nat) as [Hz|?]; [|lia].
  apply map_size_empty_inv in Hz. by rewrite Hz, lookup_empty in Hts.
Qed.
End node_facts.

(** C1.  On a node whose queue is in a state the public operations lead to,
    [get_next_message(now)] does not raise, and:
    - it returns a message [m] only if [m] is the earliest live entry (the
      pair [Head] returns, live, with no live time before its own), its time
      is before [now] (strictly), and [m] is a system message, the bucket
      being left alone, or [consume(len(m))] granted; [m] is then removed
      from both dicts;
    - when it returns [None] the two dicts are as before;
    - when the queue is empty or the earliest time is not before [now], it
      returns [None] whatever [consume] is and the bucket is the same: the
      rate limiter is not consulted;
    - when the time has passed and [consume] refuses a non-system message,
      it returns [None], and the same call with a bucket that grants returns
      that message;
    - when the time of the earliest live entry has passed and it is a system
      message or [consume] grants, that message is returned. *)
Theorem get_next_message_spec {Bucket : Type}
    (consume : nat -> Bucket -> bool * Bucket) (now : Q)
    (self : Node.t Bucket) :
  TransmissionQueue.reachable (Node.MessageQ self) ->
  let q := Node.MessageQ self in
  let result := Node.get_next_message consume now self in
  let self' := result.1 in
  let q' := Node.MessageQ self' in
  (forall e, result.2 <> Raise e) /\
  (forall m, result.2 = Ok (Some m) ->
     exists ts t',
       (TransmissionQueue.Head q).2 = Ok (Some (ts, m)) /\
       TransmissionQueue._messages q !! Identifier m = Some m /\
       TransmissionQueue._times q !! Identifier m = Some t' /\ (t' == ts)%Q /\
       (forall id t'', TransmissionQueue._times q !! id = Some t'' ->
          (ts <= t'')%Q) /\
       (ts < now)%Q /\
       (if IsSystemMessage m
        then Node.TokenBucket self' = Node.TokenBucket self
        else consume (__len__ m) (Node.TokenBucket self)
             = (true, Node.TokenBucket self')) /\
       TransmissionQueue._messages q'
         = delete (Identifier m) (TransmissionQueue._messages q) /\
       TransmissionQueue._times q'
         = delete (Identifier m) (TransmissionQueue._times q)) /\
  (result.2 = Ok None ->
     TransmissionQueue._messages q' = TransmissionQueue._messages q /\
     TransmissionQueue._times q' = TransmissionQueue._times q) /\
  (TransmissionQueue.Count q = 0%nat \/
   (exists ts m, (TransmissionQueue.Head q).2 = Ok (Some (ts, m)) /\
                 ~ (ts < now)%Q) ->
     result.2 = Ok None /\
     Node.TokenBucket self' = Node.TokenBucket self /\
     forall consume', Node.get_next_message consume' now self = result) /\
  (forall ts m b,
     (TransmissionQueue.Head q).2 = Ok (Some (ts, m)) -> (ts < now)%Q ->
     IsSystemMessage m = false ->
     consume (__len__ m) (Node.TokenBucket self) = (false, b) ->
     result.2 = Ok None /\ Node.TokenBucket self' = b /\
     forall b2 b3, consume (__len__ m) b2 = (true, b3) ->
       (Node.get_next_message consume now (Node.set_TokenBucket self' b2)).2
       = Ok (Some m)) /\
  (forall ts m,
     (TransmissionQueue.Head q).2 = Ok (Some (ts, m)) -> (ts < now)%Q ->
     IsSystemMessage m = true \/
     (consume (__len__ m) (Node.TokenBucket self)).1 = true ->
     result.2 = Ok (Some m)).
Proof.
  intros Hq%reachable_inv q result self' q'.
  pose proof (Head_maps q Hq) as [Hmsgs Htimes].
  pose proof (Head_inv q Hq) as Hq1.
  destruct (get_next_message_unfold consume now self Hq)
    as [[Hzero Hres]|(ts & msg & Hpos & Hhead & Hres)];
    fold q in Hzero || fold q in Hpos, Hhead, Hres; fold result in Hres.
  - (* the queue is empty *)
    subst self' q'. rewrite Hres. simpl. split; [done|]. split; [done|].
    split; [done|]. split.
    + intros _. split; [done|]. split; [done|]. intros consume'.
      destruct (get_next_message_unfold consume' now self Hq)
        as [[_ ->]|(? & ? & Hpos & _)]; [done|fold q in Hpos; lia].
    + split; intros ts m; [intros b|]; intros Hhead;
        (apply Head_some_count in Hhead; [lia|done]).
  - destruct (Head_some_live q ts msg Hq Hhead) as (Hlive & t' & Hts & Heq).
    pose proof (Head_earliest q ts msg Hq Hhead) as Hearly.
    set (self1 := Node.set_MessageQ self (TransmissionQueue.Head q).1) in *.
    assert (forall s : Node.t Bucket,
              Node.MessageQ s = (TransmissionQueue.Head q).1 ->
              exists q2,
                Node.send msg s = (Node.set_MessageQ s q2, Ok (Some msg)) /\
                TransmissionQueue._messages q2
                  = delete (Identifier msg) (TransmissionQueue._messages q) /\
                TransmissionQueue._times q2
                  = delete (Identifier msg) (TransmissionQueue._times q))
      as Hsend.
    { intros s Hs. destruct (send_spec msg s) as (q2 & ? & ? & ?).
      - by rewrite Hs.
      - exists q2. rewrite Hs, ?Hmsgs, ?Htimes in *. done. }
    destruct (Qltb ts now) eqn:Hgate.
    + apply Qltb_true in Hgate.
      assert (forall ts0 m0, (TransmissionQueue.Head q).2 = Ok (Some (ts0, m0))
                -> ts0 = ts /\ m0 = msg) as Hsame.
      { intros ts0 m0 H0. rewrite Hhead in H0. by injection H0 as <- <-. }
      destruct (IsSystemMessage msg) eqn:Hsys.
      * (* a system message is sent without the bucket *)
        destruct (Hsend self1 eq_refl) as (q2 & Hs & Hm2 & Ht2).
        subst self' q'. rewrite Hres, Hs. simpl.
        split; [done|]. split; [|split; [done|split]].
        -- intros m [= <-]. exists ts, t'. rewrite Hsys. done.
        -- intros [Hz|(ts0 & m0 & H0 & Hnot)]; [lia|].
           destruct (Hsame ts0 m0 H0) as [-> _]. done.
        -- split.
           ++ intros ts0 m0 b H0. destruct (Hsame ts0 m0 H0) as [_ ->].
              congruence.
           ++ intros ts0 m0 H0. by destruct (Hsame ts0 m0 H0) as [_ ->].
      * destruct (consume (__len__ msg) (Node.TokenBucket self))
          as [granted b] eqn:Hconsume.
        destruct granted.
        -- (* granted *)
           destruct (Hsend (Node.set_TokenBucket self1 b) eq_refl)
             as (q2 & Hs & Hm2 & Ht2).
           subst self' q'. rewrite Hres, Hs. simpl.
           split; [done|]. split; [|split; [done|split]].
           ++ intros m [= <-]. exists ts, t'. rewrite Hsys, Hconsume. done.
           ++ intros [Hz|(ts0 & m0 & H0 & Hnot)]; [lia|].
              destruct (Hsame ts0 m0 H0) as [-> _]. done.
           ++ split.
              ** intros ts0 m0 b0 H0. destruct (Hsame ts0 m0 H0) as [_ ->].
                 congruence.
              ** intros ts0 m0 H0. by destruct (Hsame ts0 m0 H0) as [_ ->].
        -- (* refused *)
           subst self' q'. rewrite Hres. simpl.
           split; [done|]. split; [done|]. split; [done|]. split.
           ++ intros [Hz|(ts0 & m0 & H0 & Hnot)]; [lia|].
              destruct (Hsame ts0 m0 H0) as [-> _]. done.
           ++ split.
              2:{ intros ts0 m0 H0 _. destruct (Hsame ts0 m0 H0) as [-> ->].
                  rewrite Hconsume. simpl. intros [?|?]; congruence. }
              intros ts0 m0 b0 H0 _ _. destruct (Hsame ts0 m0 H0) as [-> ->].
              rewrite Hconsume. intros [= <-]. split; [done|]. split; [done|].
              intros b2 b3 Hgrant.
              set (self2 := Node.set_TokenBucket (Node.set_TokenBucket self1 b) b2).
              destruct (get_next_message_unfold consume now self2 Hq1)
                as [[Hz _]|(ts2 & m2 & _ & Hhead2 & ->)].
              { unfold TransmissionQueue.Count in *. simpl in Hz.
                rewrite Htimes in Hz. lia. }
              simpl in Hhead2. rewrite Head_again, Hhead in Hhead2 by done.
              injection Hhead2 as <- <-.
              assert (Qltb ts now = true) as -> by by apply Qltb_true.
              rewrite Hsys. simpl. rewrite Hgrant.
              destruct (send_spec msg
                          (Node.set_TokenBucket
                             (Node.set_MessageQ self2
                                (TransmissionQueue.Head
                                   (TransmissionQueue.Head q).1).1) b3))
                as (q3 & -> & _); [|done].
              simpl. by apply Head_inv.
    + (* the time has not passed *)
      apply Qltb_false in Hgate. subst self' q'. rewrite Hres. simpl.
      split; [done|]. split; [done|]. split; [done|]. split.
      * intros _. split; [done|]. split; [done|]. intros consume'.
        destruct (get_next_message_unfold consume' now self Hq)
          as [[Hz _]|(ts2 & m2 & _ & Hhead2 & ->)]; [fold q in Hz; lia|].
        fold q in Hhead2. rewrite Hhead in Hhead2. injection Hhead2 as <- <-.
        assert (Qltb ts now = false) as -> by by apply Qltb_false. done.
      * split; intros ts0 m0; [intros b|]; intros H0;
          rewrite Hhead in H0; injection H0 as <- <-; lra.
Qed.

(** A bucket of tokens for the examples: [consume] grants when enough
    tokens are left and takes them. *)
Definition tokens_consume (amount : nat) (tokens : nat) : bool * nat :=
  if (amount <=? tokens)%nat then (true, (tokens - amount)%nat)
  else (false, tokens).

Definition example_node (q : TransmissionQueue.t) (tokens : nat) : Node.t nat :=
  {| Node.Estimator := RoundTripEstimator.__init__;
     Node.MessageQ := q;
     Node.TokenBucket := tokens;
     Node.FixedRandomDelay := 0.2;
     Node.Delay := Node._fixeddelay |}.

Lemma get_next_message_spec_witness :
  let b := Message "b" false 20 in
  let q := (TransmissionQueue.enqueue_message b 100.2
              TransmissionQueue.__init__).1 in
  let self := example_node q 5 in
  TransmissionQueue.reachable (Node.MessageQ self) /\
  (Node.get_next_message tokens_consume 100.3 self).2 = Ok None /\
  (Node.get_next_message tokens_consume 100.3
     (Node.set_TokenBucket
        (Node.get_next_message tokens_consume 100.3 self).1 50%nat)).2
  = Ok (Some b).
Proof.
  intros b q self.
  assert (TransmissionQueue.reachable (Node.MessageQ self)) as Hq
    by repeat constructor.
  split; [exact Hq|].
  destruct (get_next_message_spec tokens_consume 100.3 self Hq)
    as (_ & _ & _ & _ & Hdenied & _).
  destruct (Hdenied 100.2%Q b 5%nat) as (Hnone & _ & Hretry);
    [reflexivity..|].
  split; [exact Hnone|]. apply (Hretry 50%nat 30%nat). reflexivity.
Defined.

(** The scenario of the specification: ["B"] queued at [now = 100] with the
    fixed delay 0.2 is scheduled at 100.2; nothing is sendable at 100.1; at
    100.3, the bucket granting, ["B"] is returned and removed. *)
Example get_next_message_scenario :
  let B := Message "B" false 20 in
  let self := (Node.enqueue_message B 100 0
                 (example_node TransmissionQueue.__init__ 50)).1 in
  TransmissionQueue._times (Node.MessageQ self) !! "B" = Some (100 + 0.2)%Q /\
  (Node.get_next_message tokens_consume 100.1 self).2 = Ok None /\
  (Node.get_next_message tokens_consume 100.3 self).2 = Ok (Some B) /\
  TransmissionQueue.Count
    (Node.MessageQ (Node.get_next_message tokens_consume 100.3 self).1) = 0%nat.
Proof. repeat split; reflexivity. Qed.

(** [message_dropped] with a [now] that is given and not zero: the
    estimator backs off and the message is enqueued at that [now], whatever
    the clock says. *)
Lemma message_dropped_at_now {Bucket : Type} (msg : message) (now : Q)
    (time_time expovariate : Q) (self : Node.t Bucket) :
  ~ (now == 0)%Q ->
  Node.message_dropped msg (Some now) time_time expovariate self =
  Node.enqueue_message msg now expovariate
    (Node.set_Estimator self
       (RoundTripEstimator.backoff (Node.Estimator self))).
Proof.
  intros Hnow. unfold Node.message_dropped.
  destruct (Qeq_bool now 0) eqn:E; [|done]. by apply Qeq_bool_iff in E.
Qed.

(** C8 at [now = 0].  [if not now] takes a [now] of zero for a missing one:
    [message_dropped(m, 0)] does what [message_dropped(m)] does and schedules
    from [time.time()].  With the clock at 1000 and the fixed delay 0.2, a
    non-system message dropped at [now = 0] is scheduled at 1000.2, where
    [enqueue_message(m, 0)] schedules it at 0.2. *)
Theorem message_dropped_zero_uses_clock :
  (forall (Bucket : Type) (msg : message) (time_time expovariate : Q)
          (self : Node.t Bucket),
     Node.message_dropped msg (Some 0%Q) time_time expovariate self =
     Node.message_dropped msg None time_time expovariate self) /\
  let B := Message "B" false 20 in
  let self := example_node TransmissionQueue.__init__ 50 in
  TransmissionQueue._times
    (Node.MessageQ (Node.message_dropped B (Some 0%Q) 1000 0 self).1) !! "B"
  = Some (1000 + 0.2)%Q /\
  TransmissionQueue._times
    (Node.MessageQ (Node.enqueue_message B 0 0 self).1) !! "B"
  = Some (0 + 0.2)%Q /\
  ~ (1000 + 0.2 == 0 + 0.2)%Q.
Proof.
  split; [done|]. repeat split; try reflexivity. intros H. vm_compute in H.
  discriminate H.
Qed.

(** * Further properties *)

(** ** The transmission queue: round trips, counts and errors *)

Section queue_more.
Import TransmissionQueue.

Lemma dequeue_eq msg q :
  queue_pre q ->
  (dequeue_message msg q).2 = Ok tt /\
  _messages (dequeue_message msg q).1 = delete (Identifier msg) (_messages q) /\
  _times (dequeue_message msg q).1 = delete (Identifier msg) (_times q).
Proof. intros Hq. by destruct (dequeue_spec msg q Hq) as (heap & -> & _). Qed.

Lemma messages_absent q id :
  queue_pre q -> _times q !! id = None -> _messages q !! id = None.
Proof.
  intros Hq Hout. destruct (_messages q !! id) eqn:E; [|done].
  destruct (proj1 (pre_dom q Hq id)) as [? ?]; [eauto|congruence].
Qed.

(** [Head] after an enqueue, when the new pair is below every other live
    pair in the order of the heap. *)
Lemma Head_enqueued_min q msg ts :
  queue_inv q -> _times q !! Identifier msg = None ->
  (forall id t', _times q !! id = Some t' ->
     (ts < t')%Q \/ (ts == t')%Q /\ String_as_OT.lt (Identifier msg) id) ->
  exists ts', (Head (enqueue_message msg ts q).1).2 = Ok (Some (ts', msg)) /\
              (ts' == ts)%Q.
Proof.
  intros Hq Hnew Hmin.
  pose proof (enqueue_inv msg ts q Hq) as Hq1.
  rewrite enqueue_ok in * by (by apply inv_pre || done). simpl in *.
  destruct (Head_spec _ Hq1) as (Hres & Hq2 & _).
  destruct Hres as [heap Hempty|heap ts' id rest m t' -> Hmsg Hid Hts Heq Hle].
  { simpl in Hempty. by apply insert_non_empty in Hempty. }
  simpl in *. exists ts'.
  destruct (decide (id = Identifier msg)) as [->|Hne].
  - rewrite lookup_insert_eq in Hmsg. rewrite lookup_insert_eq in Hts.
    injection Hmsg as <-. injection Hts as <-. done.
  - exfalso. rewrite lookup_insert_ne in Hts by done.
    assert ((ts, Identifier msg) ∈ (ts', id) :: rest) as Hin.
    { apply (pre_live _ (inv_pre _ Hq2) (Identifier msg) ts). simpl.
      by rewrite lookup_insert_eq. }
    apply Hle, entry_le_iff in Hin. simpl in Hin.
    destruct (Hmin id t' Hts) as [?|[? Hlt]], Hin as [?|[? [?|Hlt']]];
      try lra; try done.
    eapply string_lt_irrefl, String_as_OT.lt_trans; eauto.
Qed.

(** The entries [_trimheap] pops are stale, and nothing else leaves the
    heap. *)
Lemma trimheap_loop_stale fuel q :
  queue_inv q -> (length (_heap q) <= fuel)%nat ->
  exists stale,
    _heap q ≡ₚ stale ++ _heap (_trimheap_loop fuel q).1 /\
    Forall (fun e : entry => current q e.1 e.2 = false) stale.
Proof.
  revert q. induction fuel as [|fuel IH]; intros q Hinv Hfuel.
  - exists []. by split.
  - cbn [_trimheap_loop]. destruct (_heap q) as [|[ts id] rest] eqn:Hheap.
    { exists []. split; [|done]. simpl. by rewrite Hheap. }
    destruct (current q ts id) eqn:Hcur.
    { exists []. split; [|done]. rewrite <- Hheap. by repeat case_match. }
    rewrite <- Hheap.
    destruct (heappop entry_lt (_heap q)) as [[x heap]|] eqn:Hpop.
    2:{ apply heappop_None in Hpop. congruence. }
    destruct (heappop_Some _ _ _ _ Hpop) as [Hx Hperm].
    rewrite Hheap in Hx. injection Hx as <-.
    assert (queue_inv (set_heap q heap)) as Hinv'.
    { destruct Hinv as [Hq Hsize]. split; [split|]; simpl.
      - apply (pre_dom q Hq).
      - apply (pre_ident q Hq).
      - intros id' ts' Hts'. pose proof (pre_live q Hq id' ts' Hts') as Hin.
        rewrite Hperm in Hin.
        apply elem_of_cons in Hin as [[= -> ->]|Hin]; [|done].
        by rewrite (current_live q ts id Hts') in Hcur.
      - eapply heappop_heap; [apply _| |done]. apply (pre_heap q Hq).
      - apply Permutation_length in Hperm. simpl in Hperm. lia. }
    destruct (IH (set_heap q heap) Hinv') as (stale & Hstale & Hall).
    { simpl. apply Permutation_length in Hperm. rewrite Hheap in Hperm.
      simpl in Hperm, Hfuel. lia. }
    exists ((ts, id) :: stale). split.
    + rewrite Hperm. simpl. apply perm_skip, Hstale.
    + constructor; [done|]. done.
Qed.
End queue_more.

(** X1.  Enqueueing a message that is not live and dequeueing it at once
    gives back the two dicts of the queue; neither call raises. *)
Theorem enqueue_dequeue_round_trip
    (q : TransmissionQueue.t) (msg : message) (ts : Q) :
  TransmissionQueue.reachable q ->
  TransmissionQueue._times q !! Identifier msg = None ->
  let r1 := TransmissionQueue.enqueue_message msg ts q in
  let r2 := TransmissionQueue.dequeue_message msg r1.1 in
  r1.2 = Ok tt /\ r2.2 = Ok tt /\
  TransmissionQueue._messages r2.1 = TransmissionQueue._messages q /\
  TransmissionQueue._times r2.1 = TransmissionQueue._times q /\
  TransmissionQueue.Count r2.1 = TransmissionQueue.Count q.
Proof.
  intros Hq%reachable_inv Hnew r1 r2.
  pose proof (enqueue_inv msg ts q Hq) as Hq1.
  pose proof (messages_absent q _ (inv_pre q Hq) Hnew) as Hnew'.
  subst r1 r2. rewrite enqueue_ok in * by (by apply inv_pre || done).
  simpl in *. split; [done|].
  destruct (dequeue_eq msg _ (inv_pre _ Hq1)) as (-> & Hm & Ht).
  unfold TransmissionQueue.Count. rewrite Hm, Ht. simpl.
  by rewrite !delete_insert_eq, !delete_id by done.
Qed.

Lemma enqueue_dequeue_round_trip_witness :
  let a := Message "a" false 10 in
  let b := Message "b" false 20 in
  let q := (TransmissionQueue.enqueue_message a 1
              TransmissionQueue.__init__).1 in
  TransmissionQueue.reachable q /\
  TransmissionQueue._times
    (TransmissionQueue.dequeue_message b
       (TransmissionQueue.enqueue_message b 2 q).1).1
  = TransmissionQueue._times q.
Proof.
  intros a b q. split; [repeat constructor|].
  apply (enqueue_dequeue_round_trip q b 2); [repeat constructor|reflexivity].
Defined.

(** X2.  A message can be enqueued again after it was dequeued: the second
    enqueue does not raise, the new time is the one recorded, and when [Head]
    returns the message it returns it with the new time, not with the time of
    the entry the first enqueue left in the heap. *)
Theorem reenqueue_after_dequeue
    (q : TransmissionQueue.t) (msg : message) (ts : Q) :
  TransmissionQueue.reachable q ->
  let q1 := (TransmissionQueue.dequeue_message msg q).1 in
  let r := TransmissionQueue.enqueue_message msg ts q1 in
  r.2 = Ok tt /\
  TransmissionQueue._times r.1 !! Identifier msg = Some ts /\
  TransmissionQueue._messages r.1 !! Identifier msg = Some msg /\
  forall ts' m',
    (TransmissionQueue.Head r.1).2 = Ok (Some (ts', m')) ->
    Identifier m' = Identifier msg -> m' = msg /\ (ts' == ts)%Q.
Proof.
  intros Hq%reachable_inv q1 r.
  pose proof (dequeue_inv msg q Hq) as Hq1. fold q1 in Hq1.
  assert (TransmissionQueue._times q1 !! Identifier msg = None) as Hgone.
  { subst q1. destruct (dequeue_eq msg q (inv_pre q Hq)) as (_ & _ & ->).
    apply lookup_delete_eq. }
  pose proof (enqueue_inv msg ts q1 Hq1) as Hr. fold r in Hr.
  subst r. rewrite enqueue_ok in * by (by apply inv_pre || done). simpl in *.
  rewrite !lookup_insert_eq. do 3 (split; [done|]).
  intros ts' m' Hhead Hid.
  destruct (Head_some_live _ _ _ Hr Hhead) as (Hlive & t' & Hts & Heq).
  simpl in Hlive, Hts. rewrite Hid in Hlive, Hts.
  rewrite lookup_insert_eq in Hlive. rewrite lookup_insert_eq in Hts.
  injection Hlive as <-. injection Hts as <-. done.
Qed.

Lemma reenqueue_after_dequeue_witness :
  let a := Message "a" false 10 in
  let b := Message "b" false 20 in
  let q := (TransmissionQueue.enqueue_message b 9
              (TransmissionQueue.enqueue_message a 1
                 TransmissionQueue.__init__).1).1 in
  let r := TransmissionQueue.enqueue_message a 7
             (TransmissionQueue.dequeue_message a q).1 in
  TransmissionQueue.reachable q /\ r.2 = Ok tt /\
  In (1%Q, "a") (TransmissionQueue._heap r.1) /\
  (TransmissionQueue.Head r.1).2 = Ok (Some (7%Q, a)).
Proof.
  intros a b q r. split; [repeat constructor|].
  split; [apply (reenqueue_after_dequeue q a 7); repeat constructor|].
  split; [by left|reflexivity].
Defined.

(** X3.  [Count] follows the operations: an enqueue that succeeds adds one,
    an enqueue that raises adds nothing, a dequeue of a live message takes
    one away, a dequeue of a message that is not live and a reading of [Head]
    leave it as it is. *)
Theorem Count_follows_operations
    (q : TransmissionQueue.t) (msg : message) (ts : Q) :
  TransmissionQueue.reachable q ->
  let enq := TransmissionQueue.enqueue_message msg ts q in
  let deq := TransmissionQueue.dequeue_message msg q in
  (enq.2 = Ok tt ->
   TransmissionQueue.Count enq.1 = S (TransmissionQueue.Count q)) /\
  (enq.2 <> Ok tt ->
   TransmissionQueue.Count enq.1 = TransmissionQueue.Count q) /\
  (is_Some (TransmissionQueue._times q !! Identifier msg) ->
   S (TransmissionQueue.Count deq.1) = TransmissionQueue.Count q) /\
  (TransmissionQueue._times q !! Identifier msg = None ->
   TransmissionQueue.Count deq.1 = TransmissionQueue.Count q) /\
  TransmissionQueue.Count (TransmissionQueue.Head q).1
    = TransmissionQueue.Count q.
Proof.
  intros Hq%reachable_inv enq deq. unfold TransmissionQueue.Count.
  destruct (dequeue_eq msg q (inv_pre q Hq)) as (_ & _ & Hdeq).
  fold deq in Hdeq. rewrite Hdeq.
  destruct (Head_maps q Hq) as [_ ->]. subst enq.
  destruct (TransmissionQueue._times q !! Identifier msg) as [t0|] eqn:Hin.
  - rewrite enqueue_raises; [|by apply inv_pre|by eauto]. simpl.
    split; [done|]. split; [done|]. split; [|done]. intros _.
    rewrite map_size_delete_Some by eauto.
    assert (size (TransmissionQueue._times q) <> 0%nat); [|lia].
    intros Hz%map_size_empty_inv. by rewrite Hz, lookup_empty in Hin.
  - rewrite enqueue_ok; [|by apply inv_pre|done]. simpl.
    split; [intros _; by apply map_size_insert_None|]. split; [done|].
    split; [by intros [? ?]|]. split; [|done].
    intros _. by apply map_size_delete_None.
Qed.

Lemma Count_follows_operations_witness :
  let a := Message "a" false 10 in
  let b := Message "b" false 20 in
  let q := (TransmissionQueue.enqueue_message a 1
              TransmissionQueue.__init__).1 in
  TransmissionQueue.reachable q /\
  TransmissionQueue.Count (TransmissionQueue.enqueue_message b 2 q).1
    = S (TransmissionQueue.Count q) /\
  S (TransmissionQueue.Count (TransmissionQueue.dequeue_message a q).1)
    = TransmissionQueue.Count q.
Proof.
  intros a b q.
  assert (TransmissionQueue.reachable q) as Hq by repeat constructor.
  split; [exact Hq|]. split.
  - destruct (Count_follows_operations q b 2 Hq) as (Henq & _).
    apply Henq. reflexivity.
  - destruct (Count_follows_operations q a 0 Hq) as (_ & _ & Hdeq & _).
    apply Hdeq. exists 1%Q. reflexivity.
Defined.

(** X4.  On a queue the public operations lead to, the assertions of
    [dequeue_message] (in [_buildheap]) and of [Head] (and [_trimheap]) never
    fail and [heappop] is never called on an empty heap: the two never raise.
    [enqueue_message] raises exactly when the identifier is live, and then
    [AssertionError]. *)
Theorem queue_raises_only_on_duplicate
    (q : TransmissionQueue.t) (msg : message) (ts : Q) :
  TransmissionQueue.reachable q ->
  (TransmissionQueue.dequeue_message msg q).2 = Ok tt /\
  (exists r, (TransmissionQueue.Head q).2 = Ok r) /\
  ((TransmissionQueue.enqueue_message msg ts q).2 = Ok tt <->
   TransmissionQueue._times q !! Identifier msg = None) /\
  ((TransmissionQueue.enqueue_message msg ts q).2 = Raise AssertionError <->
   is_Some (TransmissionQueue._times q !! Identifier msg)).
Proof.
  intros Hq%reachable_inv.
  split; [apply dequeue_eq, inv_pre, Hq|]. split.
  - destruct (Head_spec q Hq) as (Hres & _ & _). destruct Hres; simpl; eauto.
  - destruct (TransmissionQueue._times q !! Identifier msg) as [t0|] eqn:Hin.
    + rewrite enqueue_raises; [|by apply inv_pre|by eauto]. simpl.
      split; split; try done; eauto.
    + rewrite enqueue_ok; [|by apply inv_pre|done]. simpl.
      split; split; try done; by intros [? ?].
Qed.

Lemma queue_raises_only_on_duplicate_witness :
  let a := Message "a" false 10 in
  let q := (TransmissionQueue.dequeue_message a
              (TransmissionQueue.enqueue_message a 1
                 TransmissionQueue.__init__).1).1 in
  TransmissionQueue.reachable q /\
  (TransmissionQueue.dequeue_message a q).2 = Ok tt.
Proof.
  intros a q.
  assert (TransmissionQueue.reachable q) as Hq
    by (apply TransmissionQueue.reach_dequeue; repeat constructor).
  split; [exact Hq|].
  destruct (queue_raises_only_on_duplicate q a 0 Hq) as (Hdeq & _).
  exact Hdeq.
Defined.

(** X5.  Reading [Head] a second time, with nothing in between, returns the
    same answer and leaves the queue, heap included, as the first reading
    left it. *)
Theorem Head_twice (q : TransmissionQueue.t) :
  TransmissionQueue.reachable q ->
  TransmissionQueue.Head (TransmissionQueue.Head q).1
    = TransmissionQueue.Head q.
Proof. intros Hq%reachable_inv. by apply Head_again. Qed.

Lemma Head_twice_witness :
  let a := Message "a" false 10 in
  let b := Message "b" false 20 in
  let q := (TransmissionQueue.dequeue_message a
              (TransmissionQueue.enqueue_message b 2
                 (TransmissionQueue.enqueue_message a 1
                    TransmissionQueue.__init__).1).1).1 in
  TransmissionQueue.reachable q /\
  TransmissionQueue._heap (TransmissionQueue.Head q).1
    <> TransmissionQueue._heap q /\
  TransmissionQueue.Head (TransmissionQueue.Head q).1
    = TransmissionQueue.Head q.
Proof.
  intros a b q.
  assert (TransmissionQueue.reachable q) as Hq
    by (apply TransmissionQueue.reach_dequeue; repeat constructor).
  split; [exact Hq|]. split; [discriminate|]. apply (Head_twice q Hq).
Defined.

(** X6.  Reading [Head] leaves the two dicts alone, and what it removes from
    the heap are stale entries only: the heap before is, up to order, the
    heap after plus entries that do not hold the current time of a live
    message. *)
Theorem Head_discards_stale_only (q : TransmissionQueue.t) :
  TransmissionQueue.reachable q ->
  let q' := (TransmissionQueue.Head q).1 in
  TransmissionQueue._messages q' = TransmissionQueue._messages q /\
  TransmissionQueue._times q' = TransmissionQueue._times q /\
  exists stale,
    TransmissionQueue._heap q ≡ₚ stale ++ TransmissionQueue._heap q' /\
    Forall (fun e : TransmissionQueue.entry =>
              TransmissionQueue.current q e.1 e.2 = false) stale.
Proof.
  intros Hq%reachable_inv q'. subst q'.
  destruct (Head_maps q Hq) as [-> ->]. do 2 (split; [done|]).
  destruct (trimheap_loop_stale (length (TransmissionQueue._heap q)) q Hq)
    as (stale & Hperm & Hstale); [done|].
  exists stale. split; [|done].
  destruct (Head_fst q Hq) as (heap & Htrim & ->).
  unfold TransmissionQueue._trimheap in Htrim. by rewrite Htrim in Hperm.
Qed.

Lemma Head_discards_stale_only_witness :
  let a := Message "a" false 10 in
  let b := Message "b" false 20 in
  let q := (TransmissionQueue.dequeue_message a
              (TransmissionQueue.enqueue_message b 2
                 (TransmissionQueue.enqueue_message a 1
                    TransmissionQueue.__init__).1).1).1 in
  TransmissionQueue.reachable q /\
  TransmissionQueue._heap q = [(1%Q, "a"); (2%Q, "b")] /\
  TransmissionQueue._heap (TransmissionQueue.Head q).1 = [(2%Q, "b")] /\
  TransmissionQueue._times (TransmissionQueue.Head q).1
    = TransmissionQueue._times q.
Proof.
  intros a b q.
  assert (TransmissionQueue.reachable q) as Hq
    by (apply TransmissionQueue.reach_dequeue; repeat constructor).
  split; [exact Hq|]. do 2 (split; [reflexivity|]).
  apply (Head_discards_stale_only q Hq).
Defined.

(** X7.  The pair [Head] returns is the least live pair in the order of the
    heap.  It is a live pair: its message is the one recorded under its
    identifier and its time is the time recorded for it.  And it is a least
    one: no live message has an earlier time, and among those of the same
    time none has a smaller identifier. *)
Theorem Head_is_least_live_pair
    (q : TransmissionQueue.t) (ts : Q) (msg : message) :
  TransmissionQueue.reachable q ->
  (TransmissionQueue.Head q).2 = Ok (Some (ts, msg)) ->
  (TransmissionQueue._messages q !! Identifier msg = Some msg /\
   exists t0, TransmissionQueue._times q !! Identifier msg = Some t0 /\
              (t0 == ts)%Q) /\
  forall id t', TransmissionQueue._times q !! id = Some t' ->
    (ts < t')%Q \/
    (ts == t')%Q /\
    (Identifier msg = id \/ String_as_OT.lt (Identifier msg) id).
Proof.
  intros Hq%reachable_inv Hhead.
  split; [exact (Head_some_live q ts msg Hq Hhead)|].
  intros id t' Hlive.
  destruct (Head_spec q Hq) as (Hres & Hq1 & _).
  destruct Hres as [heap Hempty|heap ts0 id0 rest m0 t0 -> Hmsg Hid Hts Heq Hle];
    simpl in *; [done|].
  injection Hhead as -> ->.
  assert ((t', id) ∈ (ts, id0) :: rest) as Hin
    by apply (pre_live _ (inv_pre _ Hq1) id t' Hlive).
  apply Hle, entry_le_iff in Hin. simpl in Hin. by rewrite Hid.
Qed.

Lemma Head_is_least_live_pair_witness :
  let a := Message "a" false 10 in
  let b := Message "b" false 20 in
  let q := (TransmissionQueue.enqueue_message a 5
              (TransmissionQueue.enqueue_message b 5
                 TransmissionQueue.__init__).1).1 in
  TransmissionQueue.reachable q /\
  (TransmissionQueue.Head q).2 = Ok (Some (5%Q, a)) /\
  TransmissionQueue._messages q !! "a" = Some a /\
  ((5 < 5)%Q \/ (5 == 5)%Q /\ ("a" = "b" \/ String_as_OT.lt "a" "b")).
Proof.
  intros a b q. split; [repeat constructor|]. split; [reflexivity|].
  destruct (Head_is_least_live_pair q 5 a) as ((Hmsg & _) & Hleast);
    [repeat constructor|reflexivity|].
  split; [exact Hmsg|]. exact (Hleast "b" 5%Q eq_refl).
Defined.

(** X8.  The heap list of a queue the public operations lead to is heap
    ordered for the order of the tuples: no entry is smaller than the entry at
    its parent index [(i - 1) / 2], and none is smaller than the first. *)
Theorem heap_list_is_ordered (q : TransmissionQueue.t) :
  TransmissionQueue.reachable q ->
  (forall i x y, (0 < i)%nat ->
     TransmissionQueue._heap q !! ((i - 1) / 2)%nat = Some x ->
     TransmissionQueue._heap q !! i = Some y ->
     TransmissionQueue.entry_lt y x = false) /\
  (forall m e,
     TransmissionQueue._heap q !! 0%nat = Some m ->
     e ∈ TransmissionQueue._heap q ->
     TransmissionQueue.entry_lt e m = false).
Proof.
  intros Hq%reachable_inv.
  pose proof (pre_heap q (inv_pre q Hq)) as Hheap. split.
  - intros i x y Hi Hx Hy. apply (Hheap i); [done|lia| |done].
    by rewrite parent_div.
  - intros m e Hm He. by apply (heap_root_min _ _ _ Hheap Hm).
Qed.

Lemma heap_list_is_ordered_witness :
  let q := (TransmissionQueue.enqueue_message (Message "c" false 1) 1
              (TransmissionQueue.enqueue_message (Message "b" false 1) 2
                 (TransmissionQueue.enqueue_message (Message "a" false 1) 3
                    TransmissionQueue.__init__).1).1).1 in
  TransmissionQueue.reachable q /\
  TransmissionQueue._heap q = [(1%Q, "c"); (3%Q, "a"); (2%Q, "b")] /\
  TransmissionQueue.entry_lt (2%Q, "b") (1%Q, "c") = false.
Proof.
  intros q. split; [repeat constructor|]. split; [reflexivity|].
  apply (heap_list_is_ordered q); [repeat constructor|reflexivity|].
  by do 2 right; left.
Defined.

(** ** The transmission queue: [Messages] and [__str__] *)

Section queue_strings.
Import TransmissionQueue.

Lemma string_length_append (a b : string) :
  String.length (String.append a b) = (String.length a + String.length b)%nat.
Proof. induction a as [|c a IH]; simpl; [done|]. by rewrite IH. Qed.

Lemma substring_prefix_length (n : nat) (s : string) :
  (String.length (substring 0 n s) <= n)%nat.
Proof.
  revert s. induction n as [|n IH]; intros [|c s]; simpl; try lia.
  specialize (IH s). lia.
Qed.

(** The length of a [', '.join]: the lengths of the pieces and one
    separator between each two. *)
Lemma string_length_concat (ls : list string) :
  (String.length (String.concat ", " ls)
   <= list_sum (String.length <$> ls) + 2 * (length ls - 1))%nat.
Proof.
  induction ls as [|x [|y ls] IH]; simpl in *; try lia.
  rewrite !string_length_append. simpl. lia.
Qed.

Lemma list_sum_bounded (k : nat) (ns : list nat) :
  Forall (fun n => n <= k)%nat ns -> (list_sum ns <= length ns * k)%nat.
Proof. induction 1; simpl; lia. Qed.

Lemma prefixes_bounded (ids : list string) :
  Forall (fun n => n <= 8)%nat
    (String.length <$> ((fun ident => substring 0 8 ident) <$> ids)).
Proof.
  induction ids as [|id ids IH]; simpl; constructor; [|done].
  apply substring_prefix_length.
Qed.
End queue_strings.

(** X9.  [Messages] lists the live identifiers, each once: an identifier is
    in the list exactly when it has a time (and, on a queue the public
    operations lead to, a message), and the list is as long as [Count]. *)
Theorem Messages_lists_live_identifiers (q : TransmissionQueue.t) :
  TransmissionQueue.reachable q ->
  NoDup (TransmissionQueue.Messages q) /\
  length (TransmissionQueue.Messages q) = TransmissionQueue.Count q /\
  forall id,
    (id ∈ TransmissionQueue.Messages q <->
     is_Some (TransmissionQueue._times q !! id)) /\
    (id ∈ TransmissionQueue.Messages q <->
     is_Some (TransmissionQueue._messages q !! id)).
Proof.
  intros Hq%reachable_inv. unfold TransmissionQueue.Messages.
  split; [apply NoDup_fst_map_to_list|]. split.
  { by rewrite length_fmap, length_map_to_list. }
  intros id.
  assert (id ∈ (map_to_list (TransmissionQueue._times q)).*1 <->
          is_Some (TransmissionQueue._times q !! id)) as Hiff.
  { rewrite list_elem_of_fmap. split.
    - intros ([id' ts] & -> & Hin%elem_of_map_to_list). simpl. eauto.
    - intros [ts Hts]. exists (id, ts). split; [done|].
      by apply elem_of_map_to_list. }
  split; [done|]. rewrite Hiff. symmetry. apply (pre_dom q (inv_pre q Hq)).
Qed.

Lemma Messages_lists_live_identifiers_witness :
  let q := (TransmissionQueue.enqueue_message (Message "b" false 1) 2
              (TransmissionQueue.enqueue_message (Message "a" false 1) 3
                 TransmissionQueue.__init__).1).1 in
  TransmissionQueue.reachable q /\
  TransmissionQueue.Messages q = ["a"; "b"]%string /\
  length (TransmissionQueue.Messages q) = TransmissionQueue.Count q.
Proof.
  intros q.
  assert (TransmissionQueue.reachable q) as Hq by repeat constructor.
  split; [exact Hq|]. split; [reflexivity|].
  destruct (Messages_lists_live_identifiers q Hq) as (_ & Hlen & _).
  exact Hlen.
Defined.

(** X10.  The string [__str__] gives is short whatever the queue holds: at
    most 45 characters (four identifiers cut to eight characters, ['...'],
    the separators and the brackets), at most 40 when no more than four
    messages are live; for an empty queue it is ['[]']. *)
Theorem str_is_bounded (q : TransmissionQueue.t) :
  (String.length (TransmissionQueue.__str__ q) <= 45)%nat /\
  ((TransmissionQueue.Count q <= 4)%nat ->
   (String.length (TransmissionQueue.__str__ q) <= 40)%nat) /\
  (TransmissionQueue.Count q = 0%nat ->
   TransmissionQueue.__str__ q = "[]"%string).
Proof.
  unfold TransmissionQueue.__str__, TransmissionQueue.Count.
  assert (length (TransmissionQueue.Messages q)
          = size (TransmissionQueue._times q)) as Hlen.
  { unfold TransmissionQueue.Messages.
    by rewrite length_fmap, length_map_to_list. }
  set (ids := TransmissionQueue.Messages q) in *.
  assert (forall shown : list string,
            (String.length
               (String.append "["
                  (String.append
                     (String.concat ", "
                        ((fun ident => substring 0 8 ident) <$> shown)) "]"))
             <= 2 + list_sum (String.length <$>
                                ((fun ident => substring 0 8 ident) <$> shown))
                + 2 * (length shown - 1))%nat) as Hbound.
  { intros shown. rewrite !string_length_append.
    pose proof (string_length_concat
                  ((fun ident => substring 0 8 ident) <$> shown)) as H.
    rewrite length_fmap in H. simpl in *. lia. }
  split; [|split].
  - destruct (decide (4 < length ids)%nat) as [Hmany|Hfew].
    + etrans; [apply Hbound|]. rewrite !fmap_app, list_sum_app, length_app.
      pose proof (list_sum_bounded 8 _ (prefixes_bounded (take 4 ids))) as H.
      rewrite !length_fmap in H. rewrite length_take in *.
      rewrite Nat.min_l in * by lia. simpl. lia.
    + etrans; [apply Hbound|].
      pose proof (list_sum_bounded 8 _ (prefixes_bounded ids)) as H.
      rewrite !length_fmap in H. lia.
  - intros Hfew. rewrite decide_False by lia. etrans; [apply Hbound|].
    pose proof (list_sum_bounded 8 _ (prefixes_bounded ids)) as H.
    rewrite !length_fmap in H. lia.
  - intros Hzero. rewrite decide_False by lia.
    rewrite <- Hlen in Hzero. by destruct ids.
Qed.

Lemma str_is_bounded_witness :
  let q := (TransmissionQueue.enqueue_message (Message "0123456789" false 1) 2
              (TransmissionQueue.enqueue_message (Message "a" false 1) 3
                 TransmissionQueue.__init__).1).1 in
  TransmissionQueue.__str__ q = "[a, 01234567]"%string /\
  (String.length (TransmissionQueue.__str__ q) <= 40)%nat.
Proof.
  intros q. split; [reflexivity|].
  destruct (str_is_bounded q) as (_ & Hfew & _). apply Hfew.
  vm_compute. lia.
Defined.

(** ** The round trip estimator: any measurement, repeated loss *)

Section estimator_more.
Import RoundTripEstimator.
Local Open Scope Q_scope.

Lemma run_app self cs1 cs2 : run self (cs1 ++ cs2) = run (run self cs1) cs2.
Proof. apply fold_left_app. Qed.

Lemma run_replicate_S self n c :
  run self (replicate (S n) c) = apply (run self (replicate n c)) c.
Proof.
  revert self. induction n as [|n IH]; intros self; [done|].
  change (replicate (S (S n)) c) with (c :: replicate (S n) c).
  change (run self (c :: replicate (S n) c))
    with (run (apply self c) (replicate (S n) c)).
  by rewrite IH.
Qed.

Lemma pow2_S (n : nat) : 2 ^ Z.of_nat (S n) == 2 ^ Z.of_nat n * 2.
Proof.
  rewrite Nat2Z.inj_succ, <- Z.add_1_r, Qpower_plus by done. reflexivity.
Qed.

Lemma pow2_pos (n : nat) : 0 < 2 ^ Z.of_nat n.
Proof. apply Qpower_0_lt. done. Qed.

Lemma backoffs_RTO self n :
  RTO (run self (replicate (S n) Backoff))
    == Qmin (RTO self * 2 ^ Z.of_nat (S n)) 60.
Proof.
  induction n as [|n IH].
  - assert (RTO self * 2 ^ Z.of_nat 1 == RTO self * 2.0) as ->
      by (change (2 ^ Z.of_nat 1) with (2 # 1); lra).
    cbn [replicate run fold_left apply backoff RTO].
    rewrite pymin_Qmin. unfold BackoffRate, MaximumRTO.
    assert (60.0 == 60) as -> by reflexivity. reflexivity.
  - rewrite run_replicate_S. cbn [apply backoff RTO].
    rewrite pymin_Qmin, IH, (pow2_S (S n)). unfold BackoffRate, MaximumRTO.
    set (p := 2 ^ Z.of_nat (S n)). set (r := RTO self).
    destruct (Q.min_spec (r * p) 60) as [[? ->]|[? ->]],
             (Q.min_spec (r * (p * 2)) 60) as [[? ->]|[? ->]];
      try (rewrite Q.min_l by lra; lra); try (rewrite Q.min_r by lra; lra).
Qed.
End estimator_more.

(** X11.  [RTO] stays within [[1.0, 60.0]] whatever is measured: [update]
    puts it there from any state and for any measurement, zero and negative
    ones included, and from a state within the bounds every sequence of
    [update] and [backoff] calls keeps it there after every call. *)
Theorem RTO_bounded_for_any_measurement :
  (forall (x : Q) (self : RoundTripEstimator.t),
     (1.0 <= RoundTripEstimator.RTO (RoundTripEstimator.update x self)
      <= 60.0)%Q) /\
  (forall (self : RoundTripEstimator.t) (cs : list RoundTripEstimator.call)
          (n : nat),
     (1.0 <= RoundTripEstimator.RTO self <= 60.0)%Q ->
     (1.0 <= RoundTripEstimator.RTO
               (RoundTripEstimator.run self (take n cs)) <= 60.0)%Q).
Proof.
  split.
  - intros x self. apply update_bounds.
  - intros self cs n Hb. by apply run_bounds.
Qed.

Lemma RTO_bounded_for_any_measurement_witness :
  let self := RoundTripEstimator.Build 2 (-3) (-1) in
  let cs := [RoundTripEstimator.Update (-5); RoundTripEstimator.Backoff;
             RoundTripEstimator.Update 0] in
  (1.0 <= RoundTripEstimator.RTO self <= 60.0)%Q /\
  (1.0 <= RoundTripEstimator.RTO (RoundTripEstimator.run self (take 3 cs))
   <= 60.0)%Q.
Proof.
  intros self cs.
  assert (1.0 <= RoundTripEstimator.RTO self <= 60.0)%Q as Hb
    by (split; discriminate).
  split; [exact Hb|].
  destruct RTO_bounded_for_any_measurement as (_ & Hrun).
  exact (Hrun self cs 3%nat Hb).
Defined.

(** X12.  Losses in a row compound: after [n >= 1] calls of [backoff] with
    no [update] in between, [RTO] is [min(RTO * 2^n, 60)]; from an [RTO] of
    at least 1 (as every [update] leaves it), six of them reach the ceiling
    of 60, and further ones stay there.  A [backoff] never lowers an [RTO]
    that is between 0 and 60. *)
Theorem backoff_compounds (self : RoundTripEstimator.t) (n : nat) :
  (1 <= n)%nat ->
  let after := RoundTripEstimator.run self
                 (replicate n RoundTripEstimator.Backoff) in
  (RoundTripEstimator.RTO after
   == Qmin (RoundTripEstimator.RTO self * 2 ^ Z.of_nat n) 60)%Q /\
  ((1 <= RoundTripEstimator.RTO self)%Q -> (6 <= n)%nat ->
   (RoundTripEstimator.RTO after == 60)%Q) /\
  ((0 <= RoundTripEstimator.RTO self <= 60)%Q ->
   (RoundTripEstimator.RTO self
    <= RoundTripEstimator.RTO (RoundTripEstimator.backoff self))%Q).
Proof.
  intros Hn after. destruct n as [|n]; [lia|].
  pose proof (backoffs_RTO self n) as Hrto. fold after in Hrto.
  split; [done|]. split.
  - intros Hone Hsix. rewrite Hrto. apply Q.min_r.
    assert (64 <= 2 ^ Z.of_nat (S n))%Q as Hpow.
    { replace (S n) with (6 + (S n - 6))%nat by lia.
      rewrite Nat2Z.inj_add, Qpower_plus by done.
      pose proof (pow2_pos (S n - 6)) as Hpos.
      assert (1 <= 2 ^ Z.of_nat (S n - 6))%Q as Hge.
      { clear. induction (S n - 6)%nat as [|k IH]; [done|].
        rewrite pow2_S. lra. }
      change (2 ^ Z.of_nat 6)%Q with (64 # 1)%Q. lra. }
    set (p := (2 ^ Z.of_nat (S n))%Q) in *.
    assert (1 * 64 <= RoundTripEstimator.RTO self * p)%Q; [|lra].
    apply Qmult_le_compat_nonneg; split; lra.
  - intros [Hlo Hhi]. unfold RoundTripEstimator.backoff. simpl.
    unfold RoundTripEstimator.BackoffRate, RoundTripEstimator.MaximumRTO.
    destruct (pymin_cases (RoundTripEstimator.RTO self * 2.0) 60.0)
      as [-> | ->]; lra.
Qed.

Lemma backoff_compounds_witness :
  let self := RoundTripEstimator.update 0.5 RoundTripEstimator.__init__ in
  let after := RoundTripEstimator.run self
                 (replicate 7 RoundTripEstimator.Backoff) in
  (1 <= 7)%nat /\ (1 <= RoundTripEstimator.RTO self)%Q /\
  (RoundTripEstimator.RTO after == 60)%Q.
Proof.
  intros self after. split; [lia|]. split; [discriminate|].
  destruct (backoff_compounds self 7) as (_ & Hsix & _); [lia|].
  apply Hsix; [discriminate|lia].
Defined.

(** ** The node: how its operations compose *)

Section node_more.
Import TransmissionQueue.
Context {Bucket : Type} (consume : nat -> Bucket -> bool * Bucket).

(** A returned message was at the head with its time passed, and it is no
    longer in the queue, which still satisfies the invariant. *)
Lemma get_next_message_returns now (self self1 : Node.t Bucket) msg :
  queue_inv (Node.MessageQ self) ->
  Node.get_next_message consume now self = (self1, Ok (Some msg)) ->
  (exists ts, (Head (Node.MessageQ self)).2 = Ok (Some (ts, msg)) /\
              (ts < now)%Q) /\
  queue_inv (Node.MessageQ self1) /\
  _times (Node.MessageQ self1)
    = delete (Identifier msg) (_times (Node.MessageQ self)) /\
  Node.Estimator self1 = Node.Estimator self /\
  Node.FixedRandomDelay self1 = Node.FixedRandomDelay self /\
  Node.Delay self1 = Node.Delay self.
Proof.
  intros Hq Hres.
  pose proof (Head_inv _ Hq) as Hq1.
  destruct (Head_maps _ Hq) as [Hmsgs Htimes].
  destruct (get_next_message_unfold consume now self Hq)
    as [[_ Heq]|(ts & m & _ & Hhead & Heq)]; rewrite Heq in Hres; [done|].
  assert (forall s : Node.t Bucket,
            Node.send m s = (self1, Ok (Some msg)) ->
            Node.MessageQ s = (Head (Node.MessageQ self)).1 ->
            m = msg /\ queue_inv (Node.MessageQ self1) /\
            _times (Node.MessageQ self1)
              = delete (Identifier msg) (_times (Node.MessageQ self)) /\
            Node.Estimator self1 = Node.Estimator s /\
            Node.FixedRandomDelay self1 = Node.FixedRandomDelay s /\
            Node.Delay self1 = Node.Delay s) as Hsend.
  { intros s Hsent Hs. revert Hsent. unfold Node.send.
    pose proof (dequeue_inv m _ Hq1) as Hq2.
    destruct (dequeue_eq m _ (inv_pre _ Hq1)) as (Hok & _ & Ht).
    rewrite Hs. destruct (dequeue_message m _) as [q2 r2]. simpl in *.
    rewrite Hok. intros [= <- <-]. simpl. by rewrite Ht, Htimes. }
  destruct (Qltb ts now) eqn:Hgate; [|done]. apply Qltb_true in Hgate.
  destruct (IsSystemMessage m).
  - destruct (Hsend _ Hres eq_refl) as (-> & ? & ? & ? & ? & ?). eauto 10.
  - destruct (consume _ _) as [[] b]; [|done].
    destruct (Hsend _ Hres eq_refl) as (-> & ? & ? & ? & ? & ?). eauto 10.
Qed.

Lemma node_enqueue_eq msg now d (self : Node.t Bucket) :
  Node.enqueue_message msg now d self =
  (Node.set_MessageQ self
     (enqueue_message msg
        (if IsSystemMessage msg then 0%Q
         else (now + Node.call_Delay self d)%Q) (Node.MessageQ self)).1,
   (enqueue_message msg
      (if IsSystemMessage msg then 0%Q
       else (now + Node.call_Delay self d)%Q) (Node.MessageQ self)).2).
Proof. unfold Node.enqueue_message. by destruct (enqueue_message _ _ _). Qed.

Lemma node_dequeue_eq msg (self : Node.t Bucket) :
  Node.dequeue_message msg self =
  (Node.set_MessageQ self (dequeue_message msg (Node.MessageQ self)).1,
   (dequeue_message msg (Node.MessageQ self)).2).
Proof. unfold Node.dequeue_message. by destruct (dequeue_message _ _). Qed.
End node_more.

(** X14.  Every operation of the node takes a node whose queue is in a state
    the public queue operations lead to, to such a node again. *)
Theorem node_keeps_queue_reachable {Bucket : Type}
    (consume : nat -> Bucket -> bool * Bucket) (self : Node.t Bucket)
    (msg : message) (now rtt time_time expovariate : Q)
    (dropped_at : option Q) :
  TransmissionQueue.reachable (Node.MessageQ self) ->
  TransmissionQueue.reachable
    (Node.MessageQ (Node.enqueue_message msg now expovariate self).1) /\
  TransmissionQueue.reachable
    (Node.MessageQ (Node.dequeue_message msg self).1) /\
  TransmissionQueue.reachable
    (Node.MessageQ (Node.get_next_message consume now self).1) /\
  TransmissionQueue.reachable
    (Node.MessageQ (Node.message_delivered msg rtt self).1) /\
  TransmissionQueue.reachable
    (Node.MessageQ
       (Node.message_dropped msg dropped_at time_time expovariate self).1).
Proof.
  intros Hq. split; [|split; [|split; [|split]]].
  - rewrite node_enqueue_eq. simpl. by constructor.
  - rewrite node_dequeue_eq. simpl. by constructor.
  - unfold Node.get_next_message, Node.send.
    pose proof (TransmissionQueue.reach_Head _ Hq) as Hq1.
    destruct (decide _); [|done].
    destruct (TransmissionQueue.Head (Node.MessageQ self)) as [q1 r].
    simpl in Hq1.
    assert (forall (s : Node.t Bucket) m,
              Node.MessageQ s = q1 ->
              TransmissionQueue.reachable
                (Node.MessageQ
                   match TransmissionQueue.dequeue_message m (Node.MessageQ s)
                   with
                   | (q, Ok _) => (Node.set_MessageQ s q, Ok (Some m))
                   | (q, Raise e) => (Node.set_MessageQ s q, Raise e)
                   end.1)) as Hsend.
    { intros s m ->.
      pose proof (TransmissionQueue.reach_dequeue _ m Hq1) as Hq2.
      destruct (TransmissionQueue.dequeue_message m q1) as [q2 [|]]; done. }
    destruct r as [[[ts m]|]|e]; [|done..].
    destruct (Qltb ts now); [|done].
    destruct (IsSystemMessage m); [by apply Hsend|].
    destruct (consume _ _) as [[] b]; [by apply Hsend|done].
  - unfold Node.message_delivered. rewrite node_dequeue_eq. simpl.
    by constructor.
  - unfold Node.message_dropped. rewrite node_enqueue_eq. simpl.
    by constructor.
Qed.

Lemma node_keeps_queue_reachable_witness :
  let b := Message "b" false 20 in
  let self := example_node
                (TransmissionQueue.enqueue_message b 1
                   TransmissionQueue.__init__).1 50 in
  TransmissionQueue.reachable (Node.MessageQ self) /\
  TransmissionQueue.reachable
    (Node.MessageQ (Node.get_next_message tokens_consume 2 self).1).
Proof.
  intros b self.
  assert (TransmissionQueue.reachable (Node.MessageQ self)) as Hq
    by repeat constructor.
  split; [exact Hq|].
  destruct (node_keeps_queue_reachable tokens_consume self b 2 0 0 0 None Hq)
    as (_ & _ & Hnext & _).
  exact Hnext.
Defined.

(** X15.  A system message goes out first and past the rate limiter: once
    enqueued (at time 0, whatever [now] is) on a node whose other messages
    all have positive times, the next [get_next_message(now)] with [now > 0]
    returns it, whatever [consume] would answer, and the bucket is as it
    was. *)
Theorem system_message_bypasses_limiter {Bucket : Type}
    (consume : nat -> Bucket -> bool * Bucket) (self : Node.t Bucket)
    (msg : message) (enqueued_at expovariate now : Q) :
  TransmissionQueue.reachable (Node.MessageQ self) ->
  IsSystemMessage msg = true ->
  TransmissionQueue._times (Node.MessageQ self) !! Identifier msg = None ->
  (forall id t', TransmissionQueue._times (Node.MessageQ self) !! id = Some t'
                 -> (0 < t')%Q) ->
  (0 < now)%Q ->
  let enq := Node.enqueue_message msg enqueued_at expovariate self in
  let next := Node.get_next_message consume now enq.1 in
  enq.2 = Ok tt /\
  TransmissionQueue._times (Node.MessageQ enq.1) !! Identifier msg
    = Some 0%Q /\
  next.2 = Ok (Some msg) /\
  Node.TokenBucket next.1 = Node.TokenBucket self /\
  forall consume', Node.get_next_message consume' now enq.1 = next.
Proof.
  intros Hq%reachable_inv Hsys Hnew Hpos Hnow enq next.
  pose proof (enqueue_inv msg 0 _ Hq) as Hq1.
  destruct (Head_enqueued_min _ msg 0 Hq Hnew) as (ts & Hhead & Hts).
  { intros id t' Hlive. left. by apply (Hpos id). }
  assert (enq = (Node.set_MessageQ self
                   (TransmissionQueue.enqueue_message msg 0
                      (Node.MessageQ self)).1, Ok tt)) as Henq.
  { subst enq. rewrite node_enqueue_eq, Hsys.
    by rewrite enqueue_ok by (by apply inv_pre || done). }
  assert (forall c : nat -> Bucket -> bool * Bucket,
            Node.get_next_message c now enq.1
            = Node.send msg
                (Node.set_MessageQ enq.1
                   (TransmissionQueue.Head (Node.MessageQ enq.1)).1))
    as Hnext.
  { intros c. rewrite Henq. simpl.
    destruct (get_next_message_unfold c now
                (Node.set_MessageQ self
                   (TransmissionQueue.enqueue_message msg 0
                      (Node.MessageQ self)).1) Hq1)
      as [[Hzero _]|(ts' & m & _ & Hhead' & ->)].
    { apply Head_some_count in Hhead; [simpl in Hzero; lia|done]. }
    simpl in Hhead'. rewrite Hhead in Hhead'. injection Hhead' as <- <-.
    assert (Qltb ts now = true) as -> by (apply Qltb_true; lra).
    by rewrite Hsys. }
  subst next. rewrite (Hnext consume).
  split; [by rewrite Henq|]. split.
  { rewrite Henq. simpl.
    rewrite enqueue_ok by (by apply inv_pre || done). simpl.
    apply lookup_insert_eq. }
  destruct (send_spec msg
              (Node.set_MessageQ enq.1
                 (TransmissionQueue.Head (Node.MessageQ enq.1)).1))
    as (q' & Hsend & _).
  { simpl. apply Head_inv. by rewrite Henq. }
  rewrite Hsend. simpl. split; [done|]. split; [by rewrite Henq|].
  intros consume'. by rewrite (Hnext consume'), Hsend.
Qed.

Lemma system_message_bypasses_limiter_witness :
  let A := Message "A" true 500 in
  let B := Message "B" false 20 in
  let self := example_node
                (TransmissionQueue.enqueue_message B 100.2
                   TransmissionQueue.__init__).1 0 in
  let enq := Node.enqueue_message A 100 0 self in
  TransmissionQueue.reachable (Node.MessageQ self) /\
  (Node.get_next_message tokens_consume 1 enq.1).2 = Ok (Some A).
Proof.
  intros A B self enq.
  assert (TransmissionQueue.reachable (Node.MessageQ self)) as Hq
    by repeat constructor.
  split; [exact Hq|].
  destruct (system_message_bypasses_limiter tokens_consume self A 100 0 1 Hq)
    as (_ & _ & Hnext & _); [reflexivity|reflexivity| |reflexivity|exact Hnext].
  intros id t'.
  change (<["B" := 100.2%Q]> (∅ : gmap string Q) !! id = Some t' ->
          (0 < t')%Q).
  intros [[_ <-]|[_ H]]%lookup_insert_Some; [done|by rewrite lookup_empty in H].
Defined.

(** X16.  [message_delivered] never raises on a node whose queue is in a
    reachable state, whether the message is queued or not: it feeds the
    round trip time to the estimator, leaves the bucket alone and removes the
    message from both dicts; a second delivery of the same message changes
    the estimator again and the queue's dicts no more. *)
Theorem message_delivered_spec {Bucket : Type} (self : Node.t Bucket)
    (msg : message) (rtt rtt' : Q) :
  TransmissionQueue.reachable (Node.MessageQ self) ->
  let once := Node.message_delivered msg rtt self in
  let twice := Node.message_delivered msg rtt' once.1 in
  once.2 = Ok tt /\
  Node.Estimator once.1 = RoundTripEstimator.update rtt (Node.Estimator self) /\
  Node.TokenBucket once.1 = Node.TokenBucket self /\
  TransmissionQueue._messages (Node.MessageQ once.1)
    = delete (Identifier msg)
        (TransmissionQueue._messages (Node.MessageQ self)) /\
  TransmissionQueue._times (Node.MessageQ once.1)
    = delete (Identifier msg) (TransmissionQueue._times (Node.MessageQ self)) /\
  twice.2 = Ok tt /\
  TransmissionQueue._messages (Node.MessageQ twice.1)
    = TransmissionQueue._messages (Node.MessageQ once.1) /\
  TransmissionQueue._times (Node.MessageQ twice.1)
    = TransmissionQueue._times (Node.MessageQ once.1) /\
  Node.Estimator twice.1
    = RoundTripEstimator.update rtt'
        (RoundTripEstimator.update rtt (Node.Estimator self)).
Proof.
  intros Hq%reachable_inv once twice.
  pose proof (dequeue_inv msg _ Hq) as Hq1.
  destruct (dequeue_eq msg _ (inv_pre _ Hq)) as (Hok & Hm & Ht).
  destruct (dequeue_eq msg _ (inv_pre _ Hq1)) as (Hok' & Hm' & Ht').
  subst twice once. unfold Node.message_delivered.
  rewrite !node_dequeue_eq. simpl.
  rewrite Hok, Hok', Hm', Ht', Hm, Ht.
  by rewrite !delete_delete_eq.
Qed.

Lemma message_delivered_spec_witness :
  let b := Message "b" false 20 in
  let self := example_node
                (TransmissionQueue.enqueue_message b 1
                   TransmissionQueue.__init__).1 50 in
  TransmissionQueue.reachable (Node.MessageQ self) /\
  (Node.message_delivered b 0.5 self).2 = Ok tt /\
  TransmissionQueue.Count
    (Node.MessageQ (Node.message_delivered b 0.5 self).1) = 0%nat.
Proof.
  intros b self.
  assert (TransmissionQueue.reachable (Node.MessageQ self)) as Hq
    by repeat constructor.
  split; [exact Hq|].
  destruct (message_delivered_spec self b 0.5 0.5 Hq) as (Hok & _).
  split; [exact Hok|reflexivity].
Defined.

(** X17.  [message_dropped] of a message that is still queued raises
    [AssertionError], and it has backed the estimator off by then: the queue
    is as it was, [RTO] is doubled (up to 60). *)
Theorem message_dropped_while_queued {Bucket : Type} (self : Node.t Bucket)
    (msg : message) (now : option Q) (time_time expovariate : Q) :
  TransmissionQueue.reachable (Node.MessageQ self) ->
  is_Some (TransmissionQueue._times (Node.MessageQ self) !! Identifier msg) ->
  let r := Node.message_dropped msg now time_time expovariate self in
  r.2 = Raise AssertionError /\
  Node.MessageQ r.1 = Node.MessageQ self /\
  Node.Estimator r.1 = RoundTripEstimator.backoff (Node.Estimator self) /\
  RoundTripEstimator.RTO (Node.Estimator r.1)
    = pymin (RoundTripEstimator.RTO (Node.Estimator self) * 2.0) 60.0.
Proof.
  intros Hq%reachable_inv Hlive r. subst r. unfold Node.message_dropped.
  rewrite node_enqueue_eq. simpl.
  rewrite enqueue_raises; [done|by apply inv_pre|done].
Qed.

Lemma message_dropped_while_queued_witness :
  let b := Message "b" false 20 in
  let self := example_node
                (TransmissionQueue.enqueue_message b 1
                   TransmissionQueue.__init__).1 50 in
  TransmissionQueue.reachable (Node.MessageQ self) /\
  (Node.message_dropped b (Some 5%Q) 1000 0 self).2 = Raise AssertionError /\
  (RoundTripEstimator.RTO
     (Node.Estimator (Node.message_dropped b (Some 5%Q) 1000 0 self).1)
   == 2)%Q.
Proof.
  intros b self.
  assert (TransmissionQueue.reachable (Node.MessageQ self)) as Hq
    by repeat constructor.
  split; [exact Hq|].
  destruct (message_dropped_while_queued self b (Some 5%Q) 1000 0 Hq)
    as (Hraise & _); [exists 1%Q; reflexivity|].
  split; [exact Hraise|reflexivity].
Defined.

(** X18.  The cycle of a send and a loss does not raise: a message that
    [get_next_message] returned can be given to [message_dropped] (with a
    [now] that is not zero), which backs the estimator off and makes the
    message live again, at time 0 for a system message and at
    [now + Delay()] otherwise. *)
Theorem dropped_after_sent {Bucket : Type}
    (consume : nat -> Bucket -> bool * Bucket) (self self1 : Node.t Bucket)
    (msg : message) (sent_at now time_time expovariate : Q) :
  TransmissionQueue.reachable (Node.MessageQ self) ->
  Node.get_next_message consume sent_at self = (self1, Ok (Some msg)) ->
  ~ (now == 0)%Q ->
  let r := Node.message_dropped msg (Some now) time_time expovariate self1 in
  r.2 = Ok tt /\
  TransmissionQueue._messages (Node.MessageQ r.1) !! Identifier msg
    = Some msg /\
  TransmissionQueue._times (Node.MessageQ r.1) !! Identifier msg
    = Some (if IsSystemMessage msg then 0%Q
            else (now + Node.call_Delay self expovariate)%Q) /\
  RoundTripEstimator.RTO (Node.Estimator r.1)
    = pymin (RoundTripEstimator.RTO (Node.Estimator self) * 2.0) 60.0.
Proof.
  intros Hq%reachable_inv Hnext Hnow r.
  destruct (get_next_message_returns consume sent_at self self1 msg Hq Hnext)
    as (_ & Hq1 & Htimes & Hest & Hfix & Hdelay).
  assert (TransmissionQueue._times (Node.MessageQ self1) !! Identifier msg
          = None) as Hgone by (rewrite Htimes; apply lookup_delete_eq).
  subst r. rewrite message_dropped_at_now by done.
  rewrite node_enqueue_eq. simpl.
  rewrite enqueue_ok by (by apply inv_pre || done). simpl.
  rewrite !lookup_insert_eq, Hest.
  unfold Node.call_Delay. simpl. by rewrite Hfix, Hdelay.
Qed.

Lemma dropped_after_sent_witness :
  let b := Message "b" false 20 in
  let self := example_node
                (TransmissionQueue.enqueue_message b 1
                   TransmissionQueue.__init__).1 50 in
  let sent := Node.get_next_message tokens_consume 2 self in
  TransmissionQueue.reachable (Node.MessageQ self) /\
  sent.2 = Ok (Some b) /\ ~ (200 == 0)%Q /\
  TransmissionQueue._times
    (Node.MessageQ (Node.message_dropped b (Some 200%Q) 1000 0 sent.1).1)
    !! "b" = Some (200 + 0.2)%Q.
Proof.
  intros b self sent.
  assert (TransmissionQueue.reachable (Node.MessageQ self)) as Hq
    by repeat constructor.
  split; [exact Hq|]. split; [reflexivity|]. split; [discriminate|].
  destruct (dropped_after_sent tokens_consume self sent.1 b 2 200 1000 0 Hq)
    as (_ & _ & Htime & _); [reflexivity|discriminate|exact Htime].
Defined.

(** X19.  A message is not sent before its time: a non-system message
    enqueued at [now] is not returned by [get_next_message(now')] as long as
    [now'] is not past [now + Delay()]. *)
Theorem not_sent_before_its_time {Bucket : Type}
    (consume : nat -> Bucket -> bool * Bucket) (self : Node.t Bucket)
    (msg : message) (now expovariate now' : Q) :
  TransmissionQueue.reachable (Node.MessageQ self) ->
  IsSystemMessage msg = false ->
  TransmissionQueue._times (Node.MessageQ self) !! Identifier msg = None ->
  (now' <= now + Node.call_Delay self expovariate)%Q ->
  let enq := Node.enqueue_message msg now expovariate self in
  enq.2 = Ok tt /\
  (Node.get_next_message consume now' enq.1).2 <> Ok (Some msg).
Proof.
  intros Hq%reachable_inv Hsys Hnew Hearly enq.
  pose proof (enqueue_inv msg (now + Node.call_Delay self expovariate) _ Hq)
    as Hq1.
  subst enq. rewrite node_enqueue_eq, Hsys in *. simpl.
  rewrite enqueue_ok in * by (by apply inv_pre || done). simpl in *.
  split; [done|]. intros Hsent.
  destruct (Node.get_next_message consume now' _) as [self1 r] eqn:Hres.
  simpl in Hsent. subst r.
  apply get_next_message_returns in Hres
    as ((ts & Hhead & Hgate) & _); [|exact Hq1].
  simpl in Hhead.
  destruct (Head_some_live _ ts msg Hq1 Hhead) as (_ & t' & Hts & Heq).
  simpl in Hts. rewrite lookup_insert_eq in Hts. injection Hts as <-. lra.
Qed.

Lemma not_sent_before_its_time_witness :
  let B := Message "B" false 20 in
  let self := example_node TransmissionQueue.__init__ 50 in
  let enq := Node.enqueue_message B 100 0 self in
  TransmissionQueue.reachable (Node.MessageQ self) /\
  (100.2 <= 100 + Node.call_Delay self 0)%Q /\
  (Node.get_next_message tokens_consume 100.2 enq.1).2 <> Ok (Some B).
Proof.
  intros B self enq.
  assert (TransmissionQueue.reachable (Node.MessageQ self)) as Hq
    by repeat constructor.
  split; [exact Hq|]. split; [discriminate|].
  destruct (not_sent_before_its_time tokens_consume self B 100 0 100.2 Hq)
    as (_ & Hnot); [reflexivity|reflexivity|discriminate|exact Hnot].
Defined.

(** ** The node as an object *)

Section object_facts.
Import NodeObject.
Context {Bucket StatsT : Type}.
Context (UseFixedDelay : bool) (TokenBucket : value -> value -> Bucket).

Lemma run_ticks_app (self : t Bucket StatsT) cs1 cs2 :
  run_ticks self (cs1 ++ cs2) = run_ticks (run_ticks self cs1) cs2.
Proof. apply fold_left_app. Qed.

Lemma run_ticks_bumps (self : t Bucket StatsT) n :
  MissedTicks (run_ticks self (replicate n Bump)) = (MissedTicks self + n)%nat.
Proof.
  revert self. induction n as [|n IH]; intros self; simpl; [lia|].
  rewrite IH. simpl. lia.
Qed.

Lemma run_ticks_core (self : t Bucket StatsT) cs :
  core (run_ticks self cs) = core self /\
  Identifier (run_ticks self cs) = Identifier self /\
  Name (run_ticks self cs) = Name self.
Proof.
  revert self. induction cs as [|[] cs IH]; intros self; simpl; [done|..];
    by destruct (IH (apply_tick self Bump)), (IH (apply_tick self Reset)).
Qed.
End object_facts.

(** X20.  [_clone] does not copy the node.  It passes the identifier where
    the constructor takes the address and the address where it takes the
    identifier: for an identifier of two characters or more the clone has the
    first two characters as host and port, and the pair (host, port) of the
    original as identifier and as name, with a new queue and a new estimator;
    for a shorter identifier it raises [IndexError], and for the identifier
    [None] it raises [TypeError]. *)
Theorem clone_swaps_address_and_identifier {Bucket StatsT : Type}
    (UseFixedDelay : bool)
    (TokenBucket : NodeObject.value -> NodeObject.value -> Bucket)
    (self : NodeObject.t Bucket StatsT) (uniform : Q) :
  (forall c1 c2 rest,
     NodeObject.Identifier self
       = NodeObject.VStr (String c1 (String c2 rest)) ->
     exists clone,
       NodeObject._clone UseFixedDelay TokenBucket self uniform
         = NodeObject.Returned clone /\
       NodeObject.NetHost clone = NodeObject.VStr (String c1 EmptyString) /\
       NodeObject.NetPort clone = NodeObject.VStr (String c2 EmptyString) /\
       NodeObject.Identifier clone = NodeObject.NetAddress self /\
       NodeObject.Name clone = NodeObject.NetAddress self /\
       NodeObject.Identifier clone <> NodeObject.Identifier self /\
       Node.MessageQ (NodeObject.core clone) = TransmissionQueue.__init__ /\
       Node.Estimator (NodeObject.core clone) = RoundTripEstimator.__init__) /\
  (forall s,
     NodeObject.Identifier self = NodeObject.VStr s ->
     (String.length s < 2)%nat ->
     NodeObject._clone UseFixedDelay TokenBucket self uniform
       = NodeObject.Raised (NodeObject.Exc IndexError)) /\
  (NodeObject.Identifier self = NodeObject.VNone ->
   NodeObject._clone UseFixedDelay TokenBucket self uniform
     = NodeObject.Raised NodeObject.TypeError).
Proof.
  unfold NodeObject._clone, NodeObject.__init__. split; [|split].
  - intros c1 c2 rest ->. simpl. eexists. split; [reflexivity|]. simpl.
    repeat split. discriminate.
  - intros s -> Hshort.
    destruct s as [|c1 [|c2 s]]; simpl in *; [done|done|lia].
  - by intros ->.
Qed.

Lemma clone_swaps_address_and_identifier_witness :
  let made :=
    NodeObject.__init__ (StatsT := unit) true (fun _ _ => 50%nat)
      (NodeObject.VTuple [NodeObject.VStr "localhost"; NodeObject.VInt 8800])
      (NodeObject.VStr "1Abc") NodeObject.VNone NodeObject.VNone
      NodeObject.VNone NodeObject.VNone 0.2 in
  exists self clone,
    made = NodeObject.Returned self /\
    NodeObject._clone true (fun _ _ => 50%nat) self 0.3
      = NodeObject.Returned clone /\
    NodeObject.NetHost clone = NodeObject.VStr "1" /\
    NodeObject.Identifier clone
      = NodeObject.VTuple
          [NodeObject.VStr "localhost"; NodeObject.VInt 8800].
Proof.
  intros made. eexists. 
  destruct (clone_swaps_address_and_identifier (StatsT := unit) true
              (fun _ _ => 50%nat)
              {| NodeObject.core := example_node TransmissionQueue.__init__ 50;
                 NodeObject.NetHost := NodeObject.VStr "localhost";
                 NodeObject.NetPort := NodeObject.VInt 8800;
                 NodeObject.SigningKey := NodeObject.VNone;
                 NodeObject.Identifier := NodeObject.VStr "1Abc";
                 NodeObject.Name := NodeObject.VStr "1Abc";
                 NodeObject.Enabled := false;
                 NodeObject.Stats := None;
                 NodeObject.MissedTicks := 0 |} 0.3) as (Hclone & _).
  destruct (Hclone "1"%char "A"%char "bc"%string eq_refl)
    as (clone & Hc & Hhost & _ & Hid & _).
  exists clone. split; [reflexivity|]. split; [exact Hc|].
  split; [exact Hhost|exact Hid].
Defined.

(** X21.  The constructor needs a name or an identifier: with a name that is
    true it takes it; with none it takes the first eight characters of a
    string identifier; with neither (the defaults) it raises [TypeError].  A
    node it returns has an empty queue, a new estimator, [Enabled] false and
    no missed ticks, and [get_next_message] on it returns [None]. *)
Theorem init_needs_name_or_identifier {Bucket StatsT : Type}
    (UseFixedDelay : bool)
    (TokenBucket : NodeObject.value -> NodeObject.value -> Bucket)
    (host port identifier signingkey name rate capacity : NodeObject.value)
    (uniform : Q) :
  let made :=
    NodeObject.__init__ (StatsT := StatsT) UseFixedDelay TokenBucket
      (NodeObject.VTuple [host; port]) identifier signingkey name rate
      capacity uniform in
  (NodeObject.truth name = true ->
   exists self, made = NodeObject.Returned self /\
                NodeObject.Name self = name) /\
  (forall s, NodeObject.truth name = false ->
     identifier = NodeObject.VStr s ->
     exists self, made = NodeObject.Returned self /\
                  NodeObject.Name self = NodeObject.VStr (substring 0 8 s)) /\
  (NodeObject.truth name = false -> identifier = NodeObject.VNone ->
   made = NodeObject.Raised NodeObject.TypeError) /\
  (forall self, made = NodeObject.Returned self ->
     NodeObject.NetAddress self = NodeObject.VTuple [host; port] /\
     NodeObject.Identifier self = identifier /\
     NodeObject.Enabled self = false /\
     NodeObject.MissedTicks self = 0%nat /\
     TransmissionQueue.Count (Node.MessageQ (NodeObject.core self)) = 0%nat /\
     (RoundTripEstimator.RTO (Node.Estimator (NodeObject.core self)) == 1)%Q /\
     Node.FixedRandomDelay (NodeObject.core self) = uniform /\
     forall consume now,
       Node.get_next_message consume now (NodeObject.core self)
       = (NodeObject.core self, Ok None)).
Proof.
  intros made. subst made. unfold NodeObject.__init__. simpl.
  split; [|split; [|split]].
  - intros ->. eexists. split; reflexivity.
  - intros s -> ->. simpl. eexists. split; reflexivity.
  - by intros -> ->.
  - intros self. destruct (NodeObject.truth name).
    + intros [= <-]. simpl. repeat split; reflexivity.
    + destruct (NodeObject.slice_to identifier 8); [|done].
      intros [= <-]. simpl. repeat split; reflexivity.
Qed.

Lemma init_needs_name_or_identifier_witness :
  NodeObject.__init__ (Bucket := nat) (StatsT := unit) true
    (fun _ _ => 50%nat)
    (NodeObject.VTuple [NodeObject.VNone; NodeObject.VNone])
    NodeObject.VNone NodeObject.VNone NodeObject.VNone NodeObject.VNone
    NodeObject.VNone 0.2
  = NodeObject.Raised NodeObject.TypeError.
Proof.
  destruct (init_needs_name_or_identifier (Bucket := nat) (StatsT := unit)
              true (fun _ _ => 50%nat) NodeObject.VNone NodeObject.VNone
              NodeObject.VNone NodeObject.VNone NodeObject.VNone
              NodeObject.VNone NodeObject.VNone 0.2)
    as (_ & _ & Hnone & _).
  apply Hnone; reflexivity.
Defined.

(** X22.  [MissedTicks] counts the calls of [bump_ticks] since the last
    [reset_ticks] (or, if there was none, since the value it started from),
    and the two methods touch nothing else: queue, estimator, bucket,
    identifier and name stay as they are. *)
Theorem MissedTicks_counts_bumps {Bucket StatsT : Type}
    (self : NodeObject.t Bucket StatsT) (cs : list NodeObject.tick)
    (n : nat) :
  NodeObject.MissedTicks
    (NodeObject.run_ticks self
       (cs ++ NodeObject.Reset :: replicate n NodeObject.Bump)) = n /\
  NodeObject.MissedTicks
    (NodeObject.run_ticks self (replicate n NodeObject.Bump))
    = (NodeObject.MissedTicks self + n)%nat /\
  NodeObject.core (NodeObject.run_ticks self cs) = NodeObject.core self /\
  NodeObject.Identifier (NodeObject.run_ticks self cs)
    = NodeObject.Identifier self /\
  NodeObject.Name (NodeObject.run_ticks self cs) = NodeObject.Name self.
Proof.
  split; [|split; [apply run_ticks_bumps|apply run_ticks_core]].
  rewrite run_ticks_app.
  change (NodeObject.run_ticks ?s (NodeObject.Reset :: ?l))
    with (NodeObject.run_ticks (NodeObject.reset_ticks s) l).
  by rewrite run_ticks_bumps.
Qed.

(** ** The node: removing twice, and the order of sending *)

Section node_order.
Import TransmissionQueue.

Lemma dequeue_absent_noop msg q :
  queue_inv q -> _times q !! Identifier msg = None ->
  dequeue_message msg q = (q, Ok tt).
Proof.
  intros Hq Hout.
  destruct (dequeue_spec msg q (inv_pre q Hq)) as (heap & -> & _ & ->).
  pose proof (messages_absent q _ (inv_pre q Hq) Hout) as Hout'.
  rewrite !delete_id by done.
  rewrite decide_False by (pose proof (inv_size q Hq); lia). by destruct q.
Qed.
End node_order.

(** X23.  [dequeue_message] of the node is idempotent: it never raises, and
    a second removal of the same message leaves the whole node, the heap
    included, as the first one left it. *)
Theorem dequeue_message_idempotent {Bucket : Type} (self : Node.t Bucket)
    (msg : message) :
  TransmissionQueue.reachable (Node.MessageQ self) ->
  let once := Node.dequeue_message msg self in
  once.2 = Ok tt /\
  TransmissionQueue._times (Node.MessageQ once.1) !! Identifier msg = None /\
  Node.dequeue_message msg once.1 = (once.1, Ok tt).
Proof.
  intros Hq%reachable_inv once. subst once.
  pose proof (dequeue_inv msg _ Hq) as Hq1.
  destruct (dequeue_eq msg _ (inv_pre _ Hq)) as (Hok & _ & Ht).
  rewrite (node_dequeue_eq msg self).
  set (q1 := (TransmissionQueue.dequeue_message msg (Node.MessageQ self)).1)
    in *.
  assert (TransmissionQueue._times q1 !! Identifier msg = None) as Hgone
    by (rewrite Ht; apply lookup_delete_eq).
  cbn [fst snd]. rewrite Hok. split; [done|]. split; [done|].
  rewrite node_dequeue_eq. cbn [Node.MessageQ Node.set_MessageQ].
  by rewrite dequeue_absent_noop.
Qed.

Lemma dequeue_message_idempotent_witness :
  let a := Message "a" false 10 in
  let b := Message "b" false 20 in
  let self := example_node
                (TransmissionQueue.enqueue_message b 2
                   (TransmissionQueue.enqueue_message a 1
                      TransmissionQueue.__init__).1).1 50 in
  let once := Node.dequeue_message a self in
  TransmissionQueue.reachable (Node.MessageQ self) /\
  Node.dequeue_message a once.1 = (once.1, Ok tt).
Proof.
  intros a b self once.
  assert (TransmissionQueue.reachable (Node.MessageQ self)) as Hq
    by repeat constructor.
  split; [exact Hq|].
  destruct (dequeue_message_idempotent self a Hq) as (_ & _ & Htwice).
  exact Htwice.
Defined.

(** X24.  Messages go out in the order of their times: when two calls of
    [get_next_message] in a row each return a message, the two are different
    messages and the time recorded for the first was not after the time
    recorded for the second. *)
Theorem sent_in_time_order {Bucket : Type}
    (consume consume' : nat -> Bucket -> bool * Bucket)
    (self self1 self2 : Node.t Bucket) (now now' : Q) (m1 m2 : message) :
  TransmissionQueue.reachable (Node.MessageQ self) ->
  Node.get_next_message consume now self = (self1, Ok (Some m1)) ->
  Node.get_next_message consume' now' self1 = (self2, Ok (Some m2)) ->
  Identifier m1 <> Identifier m2 /\
  exists t1 t2,
    TransmissionQueue._times (Node.MessageQ self) !! Identifier m1 = Some t1 /\
    TransmissionQueue._times (Node.MessageQ self) !! Identifier m2 = Some t2 /\
    (t1 <= t2)%Q.
Proof.
  intros Hq%reachable_inv Hfirst Hsecond.
  destruct (get_next_message_returns consume now self self1 m1 Hq Hfirst)
    as ((ts1 & Hhead1 & _) & Hq1 & Htimes & _).
  destruct (get_next_message_returns consume' now' self1 self2 m2 Hq1 Hsecond)
    as ((ts2 & Hhead2 & _) & _).
  destruct (Head_some_live _ ts1 m1 Hq Hhead1) as (_ & t1 & Ht1 & Heq1).
  destruct (Head_some_live _ ts2 m2 Hq1 Hhead2) as (_ & t2 & Ht2 & Heq2).
  rewrite Htimes in Ht2. apply lookup_delete_Some in Ht2 as [Hne Ht2].
  split; [done|]. exists t1, t2. do 2 (split; [done|]).
  pose proof (Head_earliest _ ts1 m1 Hq Hhead1 _ _ Ht2). lra.
Qed.

Lemma sent_in_time_order_witness :
  let a := Message "a" false 10 in
  let b := Message "b" true 20 in
  let self := example_node
                (TransmissionQueue.enqueue_message b 2
                   (TransmissionQueue.enqueue_message a 1
                      TransmissionQueue.__init__).1).1 50 in
  let first := Node.get_next_message tokens_consume 5 self in
  let second := Node.get_next_message tokens_consume 5 first.1 in
  TransmissionQueue.reachable (Node.MessageQ self) /\
  first.2 = Ok (Some a) /\ second.2 = Ok (Some b) /\
  Identifier a <> Identifier b.
Proof.
  intros a b self first second.
  assert (TransmissionQueue.reachable (Node.MessageQ self)) as Hq
    by repeat constructor.
  split; [exact Hq|]. do 2 (split; [reflexivity|]).
  destruct (sent_in_time_order tokens_consume tokens_consume self first.1
              second.1 5 5 a b Hq) as (Hne & _); [reflexivity..|exact Hne].
Defined.
